(** * ceit: a best-fit sub-allocator over named blocks (src/ceit/mem.c)

    Shallow embedding of [memc_init], [memory_alloc], [memory_write],
    [memory_read], [memory_free], [memc_dealloc] and [mem_clr], the
    properties of the specification that concern them, and further
    properties read off the code.

    Conventions of the embedding (LP64 target):
    - [size_t] values are integers in [0, 2^64); every [+], [-], [+=] and
      [-=] of the source on [size_t] is written with its reduction modulo
      2^64 ([size_t_add], [size_t_sub]);
    - a [Memory*] list threaded through [next] is a Rocq list of headers in
      link order; each header carries its own address, so that the pointer
      arithmetic of the source can be written out;
    - a pointer that the source tests against NULL is an [option];
    - bytes reached through [void*] handles live in a flat byte memory
      [Z -> byte]; the integer fields of the headers are kept in the records
      and are not part of that byte memory. *)

From Stdlib Require Import ZArith Lia Strings.Byte.
From stdpp Require Import base option list gmap.

Local Open Scope Z_scope.

(** ** Machine integers and C strings *)

Definition SIZE_MAX : Z := 2 ^ 64 - 1.

Definition size_t_add (a b : Z) : Z := (a + b) mod 2 ^ 64.
Definition size_t_sub (a b : Z) : Z := (a - b) mod 2 ^ 64.

Definition is_size_t (z : Z) : Prop := 0 <= z <= SIZE_MAX.

(** [sizeof(Memory)] for the struct of ceit.h on LP64: char[32] at offset
    0, size_t at 32, int at 40, 4 bytes of padding, the pointer at 48,
    char[50] at 56; the fields end at 106 and the size is rounded up to a
    multiple of 8. *)
Definition sizeof_Memory : Z := 112.

(** [sizeof(data)] where [data] is a [const void*]. *)
Definition sizeof_pointer : Z := 8.

Definition is_nul (c : byte) : bool := Byte.eqb c x00.

Definition byte_val (c : byte) : Z := Z.of_N (Byte.to_N c).

(** A [const char*] argument is the list of bytes found at the pointer; the
    terminating NUL is implicit at the end of the list. *)
Definition cstring := list byte.

(** [strlen]: number of bytes before the first NUL. *)
Fixpoint strlen (s : cstring) : nat :=
  match s with
  | [] => O
  | c :: s' => if is_nul c then O else S (strlen s')
  end.

(** [strchr(s, c)]: offset of the first occurrence of [c]; the terminator
    is part of the string, so looking for NUL always succeeds. *)
Fixpoint strchr (s : cstring) (c : byte) : option nat :=
  match s with
  | [] => if is_nul c then Some O else None
  | d :: s' =>
      if Byte.eqb d c then Some O
      else if is_nul d then None
      else S <$> strchr s' c
  end.

(** [strncpy(dst, src, n)]: the [n] bytes written to [dst]; once the
    terminator of [src] is reached the rest is filled with NULs, and no
    terminator is written when [src] has [n] or more characters. *)
Fixpoint strncpy (src : cstring) (n : nat) {struct n} : list byte :=
  match n with
  | O => []
  | S n' =>
      match src with
      | [] => replicate n x00
      | c :: src' => if is_nul c then replicate n x00 else c :: strncpy src' n'
      end
  end.

(** [strncmp(a, b, n)]: compares at most [n] characters, stops after a NUL. *)
Fixpoint strncmp (a b : cstring) (n : nat) : Z :=
  match n with
  | O => 0
  | S n' =>
      let ca := hd x00 a in
      let cb := hd x00 b in
      if negb (Byte.eqb ca cb) then byte_val ca - byte_val cb
      else if is_nul ca then 0
      else strncmp (tl a) (tl b) n'
  end.

Arguments strncpy : simpl never.
Arguments strncmp : simpl never.

(** ** Flat byte memory and [memcpy] *)

Definition memory := Z -> byte.

Definition load_bytes (mem : memory) (p : Z) (n : nat) : list byte :=
  (fun i => mem (p + Z.of_nat i)) <$> seq 0 n.

Definition store_bytes (mem : memory) (p : Z) (bs : list byte) : memory :=
  fun a =>
    if (p <=? a) then
      match bs !! Z.to_nat (a - p) with
      | Some b => b
      | None => mem a
      end
    else mem a.

(** The [n] bytes a [memcpy] reads at a source object [src]; bytes past the
    end of the object are outside the model and read as NUL. *)
Definition source_bytes (src : list byte) (n : nat) : list byte :=
  take n (src ++ replicate (n - length src) x00).

(** ** Data model (ceit.h) *)

Module Memory.
Record t : Type := mk {
  addr : Z;             (* address of this header *)
  name : list byte;     (* char name[32] *)
  size : Z;             (* size_t size *)
  is_free : Z           (* int is_free *)
}.
End Memory.
Abbreviation Memory := Memory.t.

Module Memchunk.
Record t : Type := mk {
  name : list byte;             (* char name[32] *)
  total_size : Z;
  memory_pool : list Memory;    (* head of the block list *)
  used_memory : Z;
  free_memory : Z;
  next : option Z               (* Memchunk* next *)
}.
End Memchunk.
Abbreviation Memchunk := Memchunk.t.

(** An [int] used as a condition. *)
Definition truthy (z : Z) : bool := negb (z =? 0).

(** ** memc_init *)

(** [chunk_ptr] and [pool_ptr] are the results of the two [malloc] calls;
    [mem] is the byte memory after them: the name of the first block is
    never written, so it is whatever the fresh region holds. *)
Definition memc_init (mem : memory) (chunk_ptr pool_ptr : option Z)
    (name : cstring) (total_size : Z) : option Memchunk :=
  match chunk_ptr with
  | None => None
  | Some _ =>
      let chunk_name := <[31%nat := x00]> (strncpy name 32) in
      match pool_ptr with
      | None => None
      | Some p =>
          Some (Memchunk.mk chunk_name total_size
                  [Memory.mk p (load_bytes mem p 32) total_size 1]
                  0 total_size None)
      end
  end.

(** ** memory_alloc *)

(** The search loop: [idx] is the position of [current], [best_fit] the
    candidate so far (position and header), [best_fit_size] its size. *)
Fixpoint best_fit_scan (pool : list Memory) (size : Z) (idx : nat)
    (best_fit : option (nat * Memory)) (best_fit_size : Z)
    : option (nat * Memory) :=
  match pool with
  | [] => best_fit
  | current :: rest =>
      if truthy (Memory.is_free current)
         && (size <=? Memory.size current)
         && (Memory.size current <? best_fit_size)
      then best_fit_scan rest size (S idx) (Some (idx, current)) (Memory.size current)
      else best_fit_scan rest size (S idx) best_fit best_fit_size
  end.

Definition find_best_fit (pool : list Memory) (size : Z) : option (nat * Memory) :=
  best_fit_scan pool size O None SIZE_MAX.

(** Pointer arithmetic by a [size_t] offset, in a 64-bit address space. *)
Definition ptr_add (p n : Z) : Z := (p + n) mod 2 ^ 64.

(** The header carved out of [best_fit] by a split, [sizeof(Memory) + size]
    bytes after the header of [best_fit]. *)
Definition new_block (mem : memory) (best_fit : Memory) (size : Z) : Memory :=
  let a := ptr_add (ptr_add (Memory.addr best_fit) sizeof_Memory) size in
  Memory.mk a (load_bytes mem a 32)
    (size_t_sub (size_t_sub (Memory.size best_fit) size) sizeof_Memory) 1.

(** The selected block once the (optional) split, the flag and the name
    have been written, followed by the carved block when there is one. *)
Definition allocate_block (mem : memory) (best_fit : Memory) (size : Z)
    (block_name : cstring) : list Memory :=
  if size_t_add size sizeof_Memory <? Memory.size best_fit then
    [Memory.mk (Memory.addr best_fit) (strncpy block_name 32) size 0;
     new_block mem best_fit size]
  else
    [Memory.mk (Memory.addr best_fit) (strncpy block_name 32)
       (Memory.size best_fit) 0].

Definition memory_alloc (mem : memory) (chunk : option Memchunk) (size : Z)
    (block_name : cstring) : option Z * option Memchunk :=
  match chunk with
  | None => (None, None)
  | Some c =>
      if size =? 0 then (None, chunk)
      else
        match find_best_fit (Memchunk.memory_pool c) size with
        | None => (None, chunk)
        | Some (i, best_fit) =>
            let pool' :=
              take i (Memchunk.memory_pool c)
              ++ allocate_block mem best_fit size block_name
              ++ drop (S i) (Memchunk.memory_pool c) in
            (Some (Memory.addr best_fit + sizeof_Memory),
             Some (Memchunk.mk (Memchunk.name c) (Memchunk.total_size c) pool'
                     (size_t_add (Memchunk.used_memory c) size)
                     (size_t_sub (Memchunk.free_memory c) size)
                     (Memchunk.next c)))
        end
  end.

(** ** memory_write and memory_read *)

(** Returns the [int] result and the byte memory after the call. *)
Definition memory_write (mem : memory) (mem_block : option Z)
    (data : option (list byte)) (size : Z) : Z * memory :=
  match mem_block, data with
  | Some p, Some d =>
      let size :=
        if size =? 0 then
          match strchr d x00 with
          | Some _ => size_t_add (Z.of_nat (strlen d)) 1
          | None => sizeof_pointer
          end
        else size in
      (0, store_bytes mem p (source_bytes d (Z.to_nat size)))
  | _, _ => (-1, mem)
  end.

(** Returns the [int] result and the contents of [buffer] after the call. *)
Definition memory_read (mem : memory) (mem_block : option Z)
    (buffer : option (list byte)) (size : Z) : Z * option (list byte) :=
  match mem_block, buffer with
  | Some p, Some buf =>
      (0, Some (load_bytes mem p (Z.to_nat size) ++ drop (Z.to_nat size) buf))
  | _, _ => (-1, buffer)
  end.

(** ** memory_free *)

(** The first loop: marks the first used block whose name matches and
    reports its size; [None] when the loop ends without a match. *)
Fixpoint free_scan (pool : list Memory) (block_name : cstring)
    : option (list Memory * Z) :=
  match pool with
  | [] => None
  | current :: rest =>
      if negb (truthy (Memory.is_free current))
         && (strncmp (Memory.name current) block_name 32 =? 0)
      then
        Some (Memory.mk (Memory.addr current) (Memory.name current)
                (Memory.size current) 1 :: rest,
              Memory.size current)
      else
        match free_scan rest block_name with
        | Some (rest', sz) => Some (current :: rest', sz)
        | None => None
        end
  end.

(** The second loop: after a merge [current] moves on to its new
    successor, exactly as after a block that was left alone. *)
Fixpoint coalesce (pool : list Memory) : list Memory :=
  match pool with
  | [] => []
  | current :: rest =>
      match rest with
      | [] => [current]
      | nxt :: rest' =>
          if truthy (Memory.is_free current) && truthy (Memory.is_free nxt)
          then
            Memory.mk (Memory.addr current) (Memory.name current)
              (size_t_add (Memory.size current)
                 (size_t_add sizeof_Memory (Memory.size nxt)))
              (Memory.is_free current)
            :: coalesce rest'
          else current :: coalesce rest
      end
  end.

(** [memory_free] returns [void]: the result is [tt] and the chunk after
    the call ([None] for a NULL chunk pointer). *)
Definition memory_free (chunk : option Memchunk) (block_name : option cstring)
    : unit * option Memchunk :=
  match chunk, block_name with
  | Some c, Some n =>
      let '(pool1, used1, free1) :=
        match free_scan (Memchunk.memory_pool c) n with
        | Some (pool', sz) =>
            (pool', size_t_sub (Memchunk.used_memory c) sz,
             size_t_add (Memchunk.free_memory c) sz)
        | None =>
            (Memchunk.memory_pool c, Memchunk.used_memory c,
             Memchunk.free_memory c)
        end in
      (tt, Some (Memchunk.mk (Memchunk.name c) (Memchunk.total_size c)
                   (coalesce pool1) used1 free1 (Memchunk.next c)))
  | _, _ => (tt, chunk)
  end.

(** ** The global chunk list and mem_clr *)

(** The program state that [mem_clr] works on: the global head pointer and
    the [Memchunk] objects that are live, by address. *)
Record program_state : Type := mk_state {
  global_memchunk_list : option Z;
  live_chunks : gmap Z Memchunk.t
}.

(** The state at program start: the global is initialised to NULL. *)
Definition initial_state : program_state := mk_state None ∅.

(** [memc_init] as a step of the program: the new chunk becomes live at
    the address [malloc] returned; the function never reads or writes
    [global_memchunk_list]. *)
Definition memc_init_step (st : program_state) (mem : memory)
    (chunk_ptr pool_ptr : option Z) (name : cstring) (total_size : Z)
    : option Z * program_state :=
  match memc_init mem chunk_ptr pool_ptr name total_size, chunk_ptr with
  | Some c, Some a =>
      (Some a, mk_state (global_memchunk_list st) (<[a := c]> (live_chunks st)))
  | _, _ => (None, st)
  end.

(** The outer loop of [mem_clr]: every chunk reached through [next] is
    released together with its blocks; the calls of the inner loop to
    [free] on the block headers are not recorded. Each round removes a live chunk, so
    the number of live chunks bounds the number of rounds; a pointer to a
    chunk that is not live ends the walk. *)
Fixpoint mem_clr_loop (rounds : nat) (chunks : gmap Z Memchunk.t)
    (current_chunk : option Z) : gmap Z Memchunk.t :=
  match rounds, current_chunk with
  | S rounds', Some a =>
      match chunks !! a with
      | Some c => mem_clr_loop rounds' (delete a chunks) (Memchunk.next c)
      | None => chunks
      end
  | _, _ => chunks
  end.

Definition mem_clr (st : program_state) : program_state :=
  mk_state None
    (mem_clr_loop (size (live_chunks st)) (live_chunks st)
       (global_memchunk_list st)).

(** A chunk address is reachable from the registry head when the walk
    along [next] that starts at the head meets it. *)
Inductive reachable (chunks : gmap Z Memchunk.t) : option Z -> Z -> Prop :=
  | reachable_here a c :
      chunks !! a = Some c -> reachable chunks (Some a) a
  | reachable_next a c b :
      chunks !! a = Some c -> reachable chunks (Memchunk.next c) b ->
      reachable chunks (Some a) b.

Definition registered (st : program_state) (a : Z) : Prop :=
  reachable (live_chunks st) (global_memchunk_list st) a.

(** ** Predicates used in the statements *)

(** A block can serve a request of [size] bytes. *)
Definition eligible (size : Z) (b : Memory) : bool :=
  truthy (Memory.is_free b) && (size <=? Memory.size b).

(** [res] is the best fit of [pool]: the first block of least size among
    the eligible ones below the sentinel, or nothing when there is none. *)
Definition is_best_fit (size : Z) (pool : list Memory)
    (res : option (nat * Memory)) : Prop :=
  match res with
  | None =>
      forall j b, pool !! j = Some b -> eligible size b = true ->
                  SIZE_MAX <= Memory.size b
  | Some (i, bf) =>
      pool !! i = Some bf /\ eligible size bf = true /\
      Memory.size bf < SIZE_MAX /\
      forall j b, pool !! j = Some b -> eligible size b = true ->
                  Memory.size bf <= Memory.size b /\
                  ((j < i)%nat -> Memory.size bf < Memory.size b)
  end.

(** Loop invariant of the search: what is known after the blocks [seen]. *)
Definition best_so_far (size : Z) (seen : list Memory)
    (best_fit : option (nat * Memory)) (best_fit_size : Z) : Prop :=
  is_best_fit size seen best_fit /\
  best_fit_size = match best_fit with
                  | None => SIZE_MAX
                  | Some (_, bf) => Memory.size bf
                  end.


(** The blocks of a pool lie in list order in memory: the header and
    payload of a block end at or before the header of its successor. *)
Fixpoint address_ordered (pool : list Memory) : Prop :=
  match pool with
  | [] => True
  | b :: rest =>
      match rest with
      | [] => True
      | b' :: _ =>
          Memory.addr b + sizeof_Memory + Memory.size b <= Memory.addr b'
      end /\ address_ordered rest
  end.

(** [h] is the handle [memory_alloc] returned for the used block at
    position [i] of the chunk. *)
Definition is_handle (c : Memchunk) (i : nat) (b : Memory) (h : Z) : Prop :=
  Memchunk.memory_pool c !! i = Some b /\
  Memory.is_free b = 0 /\
  h = Memory.addr b + sizeof_Memory.

(** The test of the first loop of [memory_free]. *)
Definition name_matches (block_name : cstring) (b : Memory) : bool :=
  negb (truthy (Memory.is_free b))
  && (strncmp (Memory.name b) block_name 32 =? 0).

(** ** Sequences of operations on one chunk *)

Inductive operation : Type :=
  | op_alloc (mem : memory) (size : Z) (block_name : cstring)
  | op_free (block_name : cstring).

Definition run_operation (c : Memchunk) (o : operation) : Memchunk :=
  match o with
  | op_alloc mem size block_name =>
      default c (snd (memory_alloc mem (Some c) size block_name))
  | op_free block_name =>
      default c (snd (memory_free (Some c) (Some block_name)))
  end.

Definition run_operations (c : Memchunk) (ops : list operation) : Memchunk :=
  foldl run_operation c ops.

(** ** Concrete runs *)

Definition zero_memory : memory := fun _ => x00.

Definition name_A : cstring := [x41].
Definition name_B : cstring := [x42].
Definition name_C : cstring := [x43].
Definition name_Z : cstring := [x5a].

(** [memc_init("C", n)] when both [malloc] calls succeed. *)
Definition demo_init (n : Z) : option Memchunk :=
  memc_init zero_memory (Some 4096) (Some 8192) name_C n.

(** [memory_alloc] on the result of an earlier call. *)
Definition then_alloc (c : option Memchunk) (size : Z) (block_name : cstring)
    : option Memchunk :=
  snd (memory_alloc zero_memory c size block_name).

Definition then_free (c : option Memchunk) (block_name : cstring)
    : option Memchunk :=
  snd (memory_free c (Some block_name)).

(** Size and flag of every block, in list order. *)
Definition layout (c : option Memchunk) : list (Z * Z) :=
  match c with
  | Some c => (fun b => (Memory.size b, Memory.is_free b)) <$> Memchunk.memory_pool c
  | None => []
  end.

(** The chunk [memc_init("C", 1024)] returns, and its only block. *)
Definition demo_block : Memory :=
  Memory.mk 8192 (load_bytes zero_memory 8192 32) 1024 1.

Definition demo_chunk : Memchunk :=
  Memchunk.mk (<[31%nat := x00]> (strncpy name_C 32)) 1024 [demo_block]
    0 1024 None.

(** The same chunk after [memory_alloc(chunk, 10, "A")]. *)
Definition demo_block_A : Memory :=
  Memory.mk 8192 (strncpy name_A 32) 10 0.

Definition demo_chunk_A : Memchunk :=
  Memchunk.mk (<[31%nat := x00]> (strncpy name_C 32)) 1024
    [demo_block_A; new_block zero_memory demo_block 10] 10 1014 None.

(** Two names of 33 characters that differ in the last one only. *)
Definition long_name (last : byte) : cstring := replicate 32 x41 ++ [last].

Definition eleven_bytes : list byte :=
  [x01; x02; x03; x04; x05; x06; x07; x08; x09; x0a; x0b].

(** ** What a caller can observe *)

(** A call tells its caller that it failed when some test of the returned
    value separates it from the value returned by a successful call. *)
Definition signals_failure {R : Type} (failed ok : R) : Prop :=
  exists test : R -> bool, test failed = true /\ test ok = false.

(** ** memc_dealloc *)

(** The arguments of the calls to [free] made by [memc_dealloc], in order:
    the header of every block of the list, then the chunk itself. *)
Definition memc_dealloc_frees (chunk_addr : Z) (c : Memchunk) : list Z :=
  (Memory.addr <$> Memchunk.memory_pool c) ++ [chunk_addr].

(** [memc_dealloc] as a step of the program: it returns the pointers handed
    to [free], and the chunk is no longer live afterwards. The counters it
    resets first go away with the chunk, and [global_memchunk_list] is left
    alone. A pointer to no live chunk is outside the model. *)
Definition memc_dealloc_step (st : program_state) (chunk : option Z)
    : list Z * program_state :=
  match chunk with
  | None => ([], st)
  | Some a =>
      match live_chunks st !! a with
      | Some c =>
          (memc_dealloc_frees a c,
           mk_state (global_memchunk_list st) (delete a (live_chunks st)))
      | None => ([], st)
      end
  end.

(** ** Further predicates *)

Definition is_used (b : Memory) : bool := negb (truthy (Memory.is_free b)).

(** The blocks of [pool] tile the addresses from [start] to [stop]: every
    header sits exactly where the payload of the block before it ends. *)
Fixpoint tiles (start : Z) (pool : list Memory) (stop : Z) : Prop :=
  match pool with
  | [] => start = stop
  | b :: rest =>
      Memory.addr b = start /\ 0 <= Memory.size b /\
      tiles (start + sizeof_Memory + Memory.size b) rest stop
  end.


(** The size argument of an allocation is a [size_t]. *)
Definition operation_ok (o : operation) : Prop :=
  match o with
  | op_alloc _ size _ => is_size_t size
  | op_free _ => True
  end.

(** The chunk behind a pointer that is known not to be NULL. *)
Definition the_chunk (c : option Memchunk) : Memchunk := default demo_chunk c.

(** A chunk with two used blocks that carry the same name "A", of 10 and
    20 bytes, and a used block "B" between them. *)
Definition twice_A_chunk : Memchunk :=
  the_chunk (then_alloc (then_alloc (then_alloc (Some demo_chunk) 10 name_A)
                           30 name_B) 20 name_A).

(** Three chunks at addresses 100, 200 and 300: the global list holds the
    first two, the third one is not linked. *)
Definition linked_chunk (next : option Z) : Memchunk :=
  Memchunk.mk (Memchunk.name demo_chunk) 1024 [demo_block] 0 1024 next.

Definition two_registered_state : program_state :=
  mk_state (Some 100)
    (<[100 := linked_chunk (Some 200)]>
       (<[200 := linked_chunk None]> (<[300 := linked_chunk None]> ∅))).


(** A live chunk at address 4096 whose pool has been split once. *)
Definition one_split_state : program_state :=
  mk_state None
    (<[4096 := run_operations demo_chunk [op_alloc zero_memory 10 name_A]]> ∅).
(** * Properties *)

(** ** Arithmetic on [size_t] *)

Lemma size_t_add_small a b :
  0 <= a -> 0 <= b -> a + b <= SIZE_MAX -> size_t_add a b = a + b.
Proof.
  unfold size_t_add, SIZE_MAX. intros. apply Z.mod_small. lia.
Qed.

Lemma size_t_sub_small a b :
  0 <= b <= a -> a <= SIZE_MAX -> size_t_sub a b = a - b.
Proof.
  unfold size_t_sub, SIZE_MAX. intros. apply Z.mod_small. lia.
Qed.

Lemma size_t_add_range a b : is_size_t (size_t_add a b).
Proof.
  unfold is_size_t, size_t_add, SIZE_MAX.
  pose proof (Z.mod_pos_bound (a + b) (2 ^ 64)). lia.
Qed.

Lemma size_t_sub_range a b : is_size_t (size_t_sub a b).
Proof.
  unfold is_size_t, size_t_sub, SIZE_MAX.
  pose proof (Z.mod_pos_bound (a - b) (2 ^ 64)). lia.
Qed.

(** Moving [s] from one counter to the other keeps their [size_t] sum. *)
Lemma size_t_transfer u f s :
  size_t_add (size_t_add u s) (size_t_sub f s) = size_t_add u f.
Proof.
  unfold size_t_add, size_t_sub.
  rewrite <- Z.add_mod by lia. f_equal. lia.
Qed.

Lemma size_t_transfer_back u f s :
  size_t_add (size_t_sub u s) (size_t_add f s) = size_t_add u f.
Proof.
  unfold size_t_add, size_t_sub.
  rewrite <- Z.add_mod by lia. f_equal. lia.
Qed.

(** ** The best-fit search *)

Section best_fit_search.

Variable size : Z.

Lemma lookup_snoc_inv {A} (l : list A) (x y : A) (j : nat) :
  (l ++ [x]) !! j = Some y ->
  l !! j = Some y \/ (j = length l /\ y = x).
Proof.
  intros H. destruct (decide (j < length l)%nat) as [Hlt|Hge].
  - left. by rewrite lookup_app_l in H.
  - right. rewrite lookup_app_r in H by lia.
    destruct (j - length l)%nat as [|k] eqn:E; simpl in H; [|done].
    split; [lia | congruence].
Qed.

Lemma best_so_far_step seen current best_fit best_fit_size :
  best_so_far size seen best_fit best_fit_size ->
  if truthy (Memory.is_free current)
     && (size <=? Memory.size current)
     && (Memory.size current <? best_fit_size)
  then best_so_far size (seen ++ [current])
         (Some (length seen, current)) (Memory.size current)
  else best_so_far size (seen ++ [current]) best_fit best_fit_size.
Proof.
  intros [Hbest ->].
  destruct (truthy (Memory.is_free current)
            && (size <=? Memory.size current)) eqn:Hel; simpl.
  - destruct best_fit as [[i bf]|]; simpl in *.
    + destruct Hbest as (Hi & Hbf & Hmax & Hmin).
      destruct (Memory.size current <? Memory.size bf) eqn:Hlt.
      * apply Z.ltb_lt in Hlt. split; [|done]. simpl.
        split; [by rewrite lookup_app_r, Nat.sub_diag by lia|].
        split; [done|]. split; [lia|].
        intros j b Hj Hb. apply lookup_snoc_inv in Hj as [Hj|[-> ->]].
        -- destruct (Hmin j b Hj Hb) as [Hle _]. split; [lia|]. intros _. lia.
        -- split; [lia|]. lia.
      * apply Z.ltb_ge in Hlt. split; [|done]. simpl.
        split; [by rewrite lookup_app_l by (by eapply lookup_lt_Some)|].
        split; [done|]. split; [done|].
        intros j b Hj Hb. apply lookup_snoc_inv in Hj as [Hj|[-> ->]].
        -- by apply Hmin.
        -- split; [lia|]. intros Hlen. apply lookup_lt_Some in Hi. lia.
    + destruct (Memory.size current <? SIZE_MAX) eqn:Hlt.
      * apply Z.ltb_lt in Hlt. split; [|done]. simpl.
        split; [by rewrite lookup_app_r, Nat.sub_diag by lia|].
        split; [done|]. split; [done|].
        intros j b Hj Hb. apply lookup_snoc_inv in Hj as [Hj|[-> ->]].
        -- specialize (Hbest j b Hj Hb). split; [lia|]. intros _. lia.
        -- split; [lia|]. lia.
      * apply Z.ltb_ge in Hlt. split; [|done]. simpl.
        intros j b Hj Hb. apply lookup_snoc_inv in Hj as [Hj|[-> ->]].
        -- by apply (Hbest j b).
        -- done.
  - split; [|done]. destruct best_fit as [[i bf]|]; simpl in *.
    + destruct Hbest as (Hi & Hbf & Hmax & Hmin).
      split; [by rewrite lookup_app_l by (by eapply lookup_lt_Some)|].
      split; [done|]. split; [done|].
      intros j b Hj Hb. apply lookup_snoc_inv in Hj as [Hj|[-> ->]].
      * by apply Hmin.
      * unfold eligible in Hb. congruence.
    + intros j b Hj Hb. apply lookup_snoc_inv in Hj as [Hj|[-> ->]].
      * by apply (Hbest j b).
      * unfold eligible in Hb. congruence.
Qed.

Lemma best_fit_scan_spec pool :
  forall seen best_fit best_fit_size,
    best_so_far size seen best_fit best_fit_size ->
    is_best_fit size (seen ++ pool)
      (best_fit_scan pool size (length seen) best_fit best_fit_size).
Proof.
  induction pool as [|current rest IH]; intros seen best_fit bfs Hinv; simpl.
  - rewrite app_nil_r. apply Hinv.
  - pose proof (best_so_far_step seen current best_fit bfs Hinv) as Hstep.
    replace (seen ++ current :: rest) with ((seen ++ [current]) ++ rest)
      by (by rewrite <- app_assoc).
    replace (S (length seen)) with (length (seen ++ [current]))
      by (rewrite length_app; simpl; lia).
    destruct (truthy (Memory.is_free current)
              && (size <=? Memory.size current)
              && (Memory.size current <? bfs)); by apply IH.
Qed.

(** The search of [memory_alloc] returns the best fit among the blocks
    whose size is below the sentinel [(size_t)-1]. *)
Lemma find_best_fit_spec pool :
  is_best_fit size pool (find_best_fit pool size).
Proof.
  unfold find_best_fit.
  apply (best_fit_scan_spec pool [] None SIZE_MAX).
  split; [|done]. simpl. intros j b Hj. by rewrite lookup_nil in Hj.
Qed.

(** Whenever some eligible block is smaller than the sentinel, the search
    selects a block. *)
Lemma find_best_fit_complete pool j b :
  pool !! j = Some b -> eligible size b = true -> Memory.size b < SIZE_MAX ->
  is_Some (find_best_fit pool size).
Proof.
  intros Hj Hb Hlt. pose proof (find_best_fit_spec pool) as H.
  destruct (find_best_fit pool size) as [r|]; [by eexists|].
  simpl in H. specialize (H j b Hj Hb). lia.
Qed.

(** A successful [memory_alloc] hands out the best fit: the handle it
    returns is the payload address of the first block of least size among
    the eligible blocks of the chunk. *)
Lemma memory_alloc_returns_best_fit mem c block_name h c' :
  memory_alloc mem (Some c) size block_name = (Some h, c') ->
  exists i bf,
    is_best_fit size (Memchunk.memory_pool c) (Some (i, bf)) /\
    h = Memory.addr bf + sizeof_Memory.
Proof.
  unfold memory_alloc. destruct (size =? 0); [done|].
  pose proof (find_best_fit_spec (Memchunk.memory_pool c)) as Hspec.
  destruct (find_best_fit (Memchunk.memory_pool c) size) as [[i bf]|]; [|done].
  intros [= <- _]. by exists i, bf.
Qed.

End best_fit_search.

(** C1. [memory_alloc] does not select the smallest eligible block in every
    chunk: after [memc_init("C", SIZE_MAX)] the only block is free and large
    enough for a request of one byte, yet the search passes it over, because
    its size is not below the sentinel [(size_t)-1], and the call returns
    NULL with the chunk unchanged. *)
Theorem alloc_passes_over_sentinel_sized_block :
  exists c b,
    demo_init SIZE_MAX = Some c /\
    Memchunk.memory_pool c = [b] /\
    eligible 1 b = true /\
    find_best_fit (Memchunk.memory_pool c) 1 = None /\
    memory_alloc zero_memory (Some c) 1 name_A = (None, Some c).
Proof.
  eexists _, _. repeat split; vm_compute; reflexivity.
Qed.

(** ** Initialisation *)

(** C5. When both allocations succeed, [memc_init(name, N)] with [N > 0]
    returns a chunk whose block list is exactly one block, free and of size
    [N], with [used_memory = 0] and [free_memory = N]. *)
Theorem memc_init_one_free_block mem chunk_ptr pool_ptr name N :
  0 < N ->
  exists c b,
    memc_init mem (Some chunk_ptr) (Some pool_ptr) name N = Some c /\
    Memchunk.memory_pool c = [b] /\
    Memory.is_free b = 1 /\
    Memory.size b = N /\
    Memchunk.used_memory c = 0 /\
    Memchunk.free_memory c = N.
Proof.
  intros _. simpl. eexists _, _. repeat split.
Qed.

Lemma memc_init_one_free_block_witness :
  0 < 1024 /\
  exists c b,
    memc_init zero_memory (Some 4096) (Some 8192) name_C 1024 = Some c /\
    Memchunk.memory_pool c = [b] /\
    Memory.is_free b = 1 /\
    Memory.size b = 1024 /\
    Memchunk.used_memory c = 0 /\
    Memchunk.free_memory c = 1024.
Proof.
  split; [lia|].
  apply (memc_init_one_free_block zero_memory 4096 8192 name_C 1024). lia.
Defined.

(** ** Splitting *)

Lemma sizeof_Memory_pos : 0 < sizeof_Memory.
Proof. reflexivity. Qed.

Lemma address_ordered_app_inv pre post :
  address_ordered (pre ++ post) -> address_ordered post.
Proof.
  induction pre as [|b pre IH]; [done|]. simpl. intros [_ H]. by apply IH.
Qed.

(** Replacing a block by one with the same address that ends no later. *)
Lemma address_ordered_replace1 pre b b1 post :
  Memory.addr b1 = Memory.addr b ->
  Memory.addr b1 + sizeof_Memory + Memory.size b1
    <= Memory.addr b + sizeof_Memory + Memory.size b ->
  address_ordered (pre ++ b :: post) ->
  address_ordered (pre ++ b1 :: post).
Proof.
  intros Haddr Hend. induction pre as [|p pre IH]; simpl.
  - intros [Hb Hpost]. split; [|done]. destruct post; [done|]. lia.
  - intros [Hp Hrest]. split; [|by apply IH].
    destruct pre; simpl in *; lia.
Qed.

(** Inserting a block right after [b1], inside the room that is left
    before the successor of [b1]. *)
Lemma address_ordered_insert pre b1 b2 post :
  Memory.addr b1 + sizeof_Memory + Memory.size b1 <= Memory.addr b2 ->
  (forall nxt, head post = Some nxt ->
     Memory.addr b2 + sizeof_Memory + Memory.size b2 <= Memory.addr nxt) ->
  address_ordered (pre ++ b1 :: post) ->
  address_ordered (pre ++ b1 :: b2 :: post).
Proof.
  intros H12 H2. induction pre as [|p pre IH]; simpl.
  - intros [_ Hpost]. split; [done|]. split; [|done].
    destruct post as [|nxt post]; [done|]. by apply H2.
  - intros [Hp Hrest]. split; [|by apply IH].
    destruct pre; simpl in *; lia.
Qed.

Lemma find_best_fit_take_drop size pool i best_fit :
  find_best_fit pool size = Some (i, best_fit) ->
  pool = take i pool ++ best_fit :: drop (S i) pool /\
  size <= Memory.size best_fit /\ Memory.size best_fit < SIZE_MAX.
Proof.
  intros H. pose proof (find_best_fit_spec size pool) as Hspec.
  rewrite H in Hspec. destruct Hspec as (Hi & Hel & Hmax & _).
  split; [by rewrite take_drop_middle|].
  unfold eligible in Hel. apply andb_true_iff in Hel as [_ Hle].
  apply Z.leb_le in Hle. lia.
Qed.

(** The size of the carved block when [size + sizeof(Memory)] does not
    wrap around. *)
Lemma new_block_size mem best_fit size :
  0 < size -> size + sizeof_Memory <= SIZE_MAX ->
  size_t_add size sizeof_Memory < Memory.size best_fit ->
  Memory.size best_fit < SIZE_MAX ->
  Memory.size (new_block mem best_fit size)
  = Memory.size best_fit - size - sizeof_Memory.
Proof.
  intros Hpos Hfit Hsplit Hmax. pose proof sizeof_Memory_pos as Hhdr.
  rewrite size_t_add_small in Hsplit by lia. simpl.
  rewrite (size_t_sub_small (Memory.size best_fit) size) by lia.
  rewrite size_t_sub_small; lia.
Qed.

(** The address of the carved block when the selected block lies inside
    the address space. *)
Lemma new_block_addr mem best_fit size :
  0 <= Memory.addr best_fit -> 0 <= size ->
  Memory.addr best_fit + sizeof_Memory + size <= SIZE_MAX ->
  Memory.addr (new_block mem best_fit size)
  = Memory.addr best_fit + sizeof_Memory + size.
Proof.
  pose proof sizeof_Memory_pos. unfold SIZE_MAX. intros Ha Hs Hfit.
  simpl. unfold ptr_add.
  rewrite (Z.mod_small (Memory.addr best_fit + sizeof_Memory)) by lia.
  apply Z.mod_small. lia.
Qed.

(** The split in general. When [memory_alloc] selects a block: if the size
    of the block is greater than the [size_t] sum [size + sizeof(Memory)],
    the block is shrunk to exactly [size] and a new free block holding the
    remainder follows it immediately in the list; otherwise the block is
    handed out whole and the list keeps its length. The blocks before and
    after stay as they were. When the selected block lies inside the
    address space, the carved header starts right after the shrunk
    payload, the carved block ends where the selected block ended, and the
    pool stays in address order. *)
Theorem alloc_splits_or_takes_whole mem c size block_name i best_fit :
  0 < size ->
  find_best_fit (Memchunk.memory_pool c) size = Some (i, best_fit) ->
  exists c',
    memory_alloc mem (Some c) size block_name
    = (Some (Memory.addr best_fit + sizeof_Memory), Some c') /\
    (size_t_add size sizeof_Memory < Memory.size best_fit ->
     exists carved,
       Memchunk.memory_pool c'
       = take i (Memchunk.memory_pool c)
         ++ Memory.mk (Memory.addr best_fit) (strncpy block_name 32) size 0
         :: carved :: drop (S i) (Memchunk.memory_pool c) /\
       Memory.is_free carved = 1 /\
       Memory.size carved
       = size_t_sub (size_t_sub (Memory.size best_fit) size) sizeof_Memory /\
       Memory.addr carved
       = ptr_add (ptr_add (Memory.addr best_fit) sizeof_Memory) size /\
       (0 <= Memory.addr best_fit ->
        Memory.addr best_fit + sizeof_Memory + Memory.size best_fit
          <= SIZE_MAX ->
        Memory.addr carved = Memory.addr best_fit + sizeof_Memory + size /\
        Memory.addr carved + sizeof_Memory + Memory.size carved
        = Memory.addr best_fit + sizeof_Memory + Memory.size best_fit)) /\
    (Memory.size best_fit <= size_t_add size sizeof_Memory ->
     Memchunk.memory_pool c'
     = take i (Memchunk.memory_pool c)
       ++ Memory.mk (Memory.addr best_fit) (strncpy block_name 32)
            (Memory.size best_fit) 0
       :: drop (S i) (Memchunk.memory_pool c)) /\
    (0 <= Memory.addr best_fit ->
     Memory.addr best_fit + sizeof_Memory + Memory.size best_fit <= SIZE_MAX ->
     address_ordered (Memchunk.memory_pool c) ->
     address_ordered (Memchunk.memory_pool c')).
Proof.
  intros Hpos Hfind. pose proof sizeof_Memory_pos as Hhdr.
  destruct (find_best_fit_take_drop _ _ _ _ Hfind) as (Hpool & Hle & Hmax).
  unfold memory_alloc. rewrite Hfind.
  destruct (size =? 0) eqn:Hz; [apply Z.eqb_eq in Hz; lia|].
  eexists. split; [reflexivity|]. simpl Memchunk.memory_pool.
  unfold allocate_block.
  destruct (size_t_add size sizeof_Memory <? Memory.size best_fit) eqn:Hsplit.
  - apply Z.ltb_lt in Hsplit. split; [|split].
    + intros _. exists (new_block mem best_fit size).
      split; [reflexivity|]. split; [reflexivity|]. split; [reflexivity|].
      split; [reflexivity|]. intros Ha Hin.
      rewrite new_block_addr by lia.
      rewrite new_block_size by (done || lia). lia.
    + lia.
    + intros Ha Hin Hord. rewrite Hpool in Hord. simpl app.
      pose proof (new_block_size mem best_fit size Hpos ltac:(lia) Hsplit Hmax)
        as Hsz.
      pose proof (new_block_addr mem best_fit size Ha ltac:(lia) ltac:(lia))
        as Haddr.
      rewrite size_t_add_small in Hsplit by lia.
      apply address_ordered_insert.
      * rewrite Haddr. simpl. lia.
      * intros nxt Hnxt. rewrite Haddr, Hsz.
        apply address_ordered_app_inv in Hord. destruct Hord as [Hord _].
        destruct (drop (S i) (Memchunk.memory_pool c)); simpl in *; [done|].
        injection Hnxt as ->. lia.
      * eapply address_ordered_replace1; [| |exact Hord]; simpl; [done|lia].
  - apply Z.ltb_ge in Hsplit. split; [|split].
    + lia.
    + intros _. reflexivity.
    + intros _ _ Hord. rewrite Hpool in Hord. simpl app.
      eapply address_ordered_replace1; [| |exact Hord]; simpl; [done|lia].
Qed.

(** C6. [memory_alloc] splits a block that does not exceed the requested
    size plus one header. After [memc_init("C", 2^64 - 2)] the only block
    has 2^64 - 2 bytes; a request of 2^64 - 50 bytes plus a header of 112
    bytes is more than that, so the block is to be handed out whole. The
    test of the source adds in [size_t], where the sum wraps around to 62:
    the block is split, the carved header is put at address 8254, inside
    the header of the selected block at 8192, and is given 2^64 - 64
    bytes. *)
Theorem alloc_splits_when_size_plus_header_wraps :
  exists c bf c',
    demo_init (2 ^ 64 - 2) = Some c /\
    Memchunk.memory_pool c = [bf] /\
    find_best_fit (Memchunk.memory_pool c) (2 ^ 64 - 50) = Some (0%nat, bf) /\
    Memory.size bf <= (2 ^ 64 - 50) + sizeof_Memory /\
    memory_alloc zero_memory (Some c) (2 ^ 64 - 50) name_A
    = (Some 8304, Some c') /\
    layout (Some c') = [(2 ^ 64 - 50, 0); (2 ^ 64 - 64, 1)] /\
    Memory.addr <$> Memchunk.memory_pool c' = [8192; 8254].
Proof.
  eexists _, _, _. split; [vm_compute; reflexivity|].
  split; [reflexivity|]. split; [vm_compute; reflexivity|].
  split; [vm_compute; discriminate|]. split; [vm_compute; reflexivity|].
  split; vm_compute; reflexivity.
Qed.

Lemma alloc_splits_or_takes_whole_witness :
  0 < 10 /\
  find_best_fit (Memchunk.memory_pool demo_chunk) 10 = Some (0%nat, demo_block) /\
  exists c',
    memory_alloc zero_memory (Some demo_chunk) 10 name_A
    = (Some (Memory.addr demo_block + sizeof_Memory), Some c').
Proof.
  split; [lia|]. split; [reflexivity|].
  destruct (alloc_splits_or_takes_whole zero_memory demo_chunk 10 name_A
              0%nat demo_block) as (c' & Hc' & _); [lia|reflexivity|].
  exists c'. exact Hc'.
Defined.

(** ** Counters *)

Lemma run_operation_total_size c o :
  Memchunk.total_size (run_operation c o) = Memchunk.total_size c.
Proof.
  destruct o as [mem size block_name|block_name]; simpl.
  - destruct (size =? 0); [done|].
    by destruct (find_best_fit _ _) as [[i bf]|].
  - by destruct (free_scan _ _) as [[pool' sz]|].
Qed.

Lemma run_operation_counters c o :
  size_t_add (Memchunk.used_memory (run_operation c o))
             (Memchunk.free_memory (run_operation c o))
  = size_t_add (Memchunk.used_memory c) (Memchunk.free_memory c).
Proof.
  destruct o as [mem size block_name|block_name]; simpl.
  - destruct (size =? 0); [done|].
    destruct (find_best_fit _ _) as [[i bf]|]; [|done].
    simpl. apply size_t_transfer.
  - destruct (free_scan _ _) as [[pool' sz]|]; [|done].
    simpl. apply size_t_transfer_back.
Qed.

(** The [size_t] sum of the counters. Starting from a successful
    [memc_init(name, N)], after any sequence of [memory_alloc] and
    [memory_free] calls on the chunk the sum of [used_memory] and
    [free_memory] modulo 2^64 is [total_size]: the two calls move the same
    amount between the counters. *)
Theorem counters_add_up_to_total_size mem chunk_ptr pool_ptr name N c0 ops :
  is_size_t N ->
  memc_init mem chunk_ptr pool_ptr name N = Some c0 ->
  size_t_add (Memchunk.used_memory (run_operations c0 ops))
             (Memchunk.free_memory (run_operations c0 ops))
  = Memchunk.total_size (run_operations c0 ops).
Proof.
  intros HN Hinit.
  assert (size_t_add (Memchunk.used_memory c0) (Memchunk.free_memory c0)
          = Memchunk.total_size c0) as Hinv.
  { unfold memc_init in Hinit.
    destruct chunk_ptr; [|done]. destruct pool_ptr; [|done].
    injection Hinit as <-. simpl.
    unfold is_size_t in HN. apply size_t_add_small; lia. }
  clear Hinit. revert c0 Hinv. unfold run_operations.
  induction ops as [|o ops IH]; intros c0 Hinv; simpl; [done|].
  apply IH. by rewrite run_operation_counters, run_operation_total_size.
Qed.

Lemma counters_add_up_to_total_size_witness :
  is_size_t 1024 /\
  memc_init zero_memory (Some 4096) (Some 8192) name_C 1024 = Some demo_chunk /\
  let c := run_operations demo_chunk
             [op_alloc zero_memory 1000 name_A; op_free name_A;
              op_alloc zero_memory 10 name_B] in
  size_t_add (Memchunk.used_memory c) (Memchunk.free_memory c)
  = Memchunk.total_size c.
Proof.
  split; [unfold is_size_t, SIZE_MAX; lia|]. split; [reflexivity|].
  apply (counters_add_up_to_total_size zero_memory (Some 4096) (Some 8192)
           name_C 1024).
  - unfold is_size_t, SIZE_MAX. lia.
  - reflexivity.
Defined.

(** After an allocation that does not split, [memory_free] takes the whole
    size of the block from [used_memory], which was raised by the requested
    size only: the counter wraps around below zero. *)
Lemma used_memory_wraps_after_unsplit_block :
  let c := run_operations demo_chunk
             [op_alloc zero_memory 1000 name_A; op_free name_A] in
  Memchunk.used_memory c = 2 ^ 64 - 24 /\ Memchunk.free_memory c = 1048.
Proof. vm_compute. done. Qed.

(** C8. The counters do not keep [used_memory + free_memory = total_size].
    After [memc_init("C", 1024)], [memory_alloc(1000, "A")] takes the only
    block whole (1024 bytes do not exceed 1000 + 112) and charges the 1000
    bytes requested; [memory_free("A")] then credits the 1024 bytes of the
    block. [used_memory] wraps around to 2^64 - 24, [free_memory] is 1048,
    more than [total_size], and the two no longer add up to 1024. *)
Theorem counters_drift_after_unsplit_alloc :
  let c1 := run_operations demo_chunk [op_alloc zero_memory 1000 name_A] in
  let c2 := run_operations demo_chunk
              [op_alloc zero_memory 1000 name_A; op_free name_A] in
  memc_init zero_memory (Some 4096) (Some 8192) name_C 1024 = Some demo_chunk /\
  layout (Some c1) = [(1024, 0)] /\
  Memchunk.used_memory c1 = 1000 /\ Memchunk.free_memory c1 = 24 /\
  layout (Some c2) = [(1024, 1)] /\
  Memchunk.used_memory c2 = 2 ^ 64 - 24 /\ Memchunk.free_memory c2 = 1048 /\
  Memchunk.total_size c2 = 1024 /\
  Memchunk.used_memory c2 + Memchunk.free_memory c2 <> Memchunk.total_size c2.
Proof.
  repeat split; try (vm_compute; reflexivity). vm_compute. discriminate.
Qed.

(** ** Reading and writing through a handle *)

Lemma length_load_bytes mem p n : length (load_bytes mem p n) = n.
Proof. unfold load_bytes. by rewrite length_fmap, length_seq. Qed.

Lemma load_store_same mem p bs :
  load_bytes (store_bytes mem p bs) p (length bs) = bs.
Proof.
  apply list_eq. intros i. unfold load_bytes. rewrite list_lookup_fmap.
  destruct (decide (i < length bs)%nat) as [Hlt|Hge].
  - rewrite lookup_seq_lt by done. simpl. unfold store_bytes.
    destruct (Z.leb_spec p (p + Z.of_nat i)); [|lia].
    replace (Z.to_nat (p + Z.of_nat i - p)) with i by lia.
    destruct (lookup_lt_is_Some_2 bs i Hlt) as [b Hb]. by rewrite Hb.
  - rewrite lookup_seq_ge by lia. simpl.
    symmetry. apply lookup_ge_None_2. lia.
Qed.

Lemma source_bytes_all src : source_bytes src (length src) = src.
Proof.
  unfold source_bytes. rewrite Nat.sub_diag. simpl.
  rewrite app_nil_r. apply take_ge. lia.
Qed.

Lemma length_source_bytes src n : length (source_bytes src n) = n.
Proof.
  unfold source_bytes. rewrite length_take, length_app, length_replicate. lia.
Qed.

(** What a successful [memory_write] leaves at the handle. *)
Lemma memory_write_stores mem h data k :
  0 < k ->
  memory_write mem (Some h) (Some data) k
  = (0, store_bytes mem h (source_bytes data (Z.to_nat k))).
Proof.
  intros Hk. unfold memory_write.
  destruct (k =? 0) eqn:E; [apply Z.eqb_eq in E; lia|done].
Qed.

(** C9. For a handle [h] of a used block [b] and [k] bytes with [k] at
    most the size of [b], [memory_write(h, bytes, k)] and then
    [memory_read(h, buffer, k)] both return 0 and the first [k] bytes of
    the buffer are exactly the bytes written. *)
Theorem write_then_read_returns_bytes mem c i b h bytes buffer k :
  is_handle c i b h ->
  Z.of_nat (length bytes) = k ->
  k <= Memory.size b ->
  exists mem' buffer',
    memory_write mem (Some h) (Some bytes) k = (0, mem') /\
    memory_read mem' (Some h) (Some buffer) k = (0, Some buffer') /\
    take (Z.to_nat k) buffer' = bytes.
Proof.
  intros _ Hlen _. destruct (decide (k = 0)) as [->|Hk].
  - destruct bytes; [|done]. eexists _, _. split; [|split].
    + unfold memory_write. simpl. reflexivity.
    + reflexivity.
    + reflexivity.
  - eexists _, _. split; [|split].
    + apply memory_write_stores. lia.
    + reflexivity.
    + rewrite take_app_length' by (by rewrite length_load_bytes).
      subst k. rewrite Nat2Z.id, source_bytes_all. apply load_store_same.
Qed.

Lemma write_then_read_returns_bytes_witness :
  is_handle demo_chunk_A 0 demo_block_A 8304 /\
  Z.of_nat (length [x48; x49]) = 2 /\
  2 <= Memory.size demo_block_A /\
  exists mem' buffer',
    memory_write zero_memory (Some 8304) (Some [x48; x49]) 2 = (0, mem') /\
    memory_read mem' (Some 8304) (Some [x00; x00; x00]) 2 = (0, Some buffer') /\
    take (Z.to_nat 2) buffer' = [x48; x49].
Proof.
  assert (is_handle demo_chunk_A 0 demo_block_A 8304) as Hh
    by (repeat split; reflexivity).
  split; [exact Hh|]. split; [reflexivity|]. split; [simpl; lia|].
  apply (write_then_read_returns_bytes zero_memory demo_chunk_A 0%nat
           demo_block_A 8304 [x48; x49] [x00; x00; x00] 2 Hh).
  - reflexivity.
  - simpl. lia.
Defined.

(** The results of the two calls in general. [memory_write] and
    [memory_read] never look at
    the size of the block behind the handle: with a handle and a source or
    buffer that are not NULL they return 0 for every [k], and a write of
    [k] bytes leaves those [k] bytes at the handle, whether or not [k]
    exceeds the size of the block; they return -1 when one of the two
    pointers is NULL. *)
Theorem write_and_read_do_not_check_block_size mem h data buffer k :
  fst (memory_write mem (Some h) (Some data) k) = 0 /\
  fst (memory_read mem (Some h) (Some buffer) k) = 0 /\
  load_bytes (snd (memory_write mem (Some h) (Some data) k)) h (Z.to_nat k)
  = source_bytes data (Z.to_nat k) /\
  fst (memory_write mem None (Some data) k) = -1 /\
  fst (memory_write mem (Some h) None k) = -1 /\
  fst (memory_read mem None (Some buffer) k) = -1 /\
  fst (memory_read mem (Some h) None k) = -1.
Proof.
  repeat split. unfold memory_write. destruct (k =? 0) eqn:E.
  - apply Z.eqb_eq in E. by subst k.
  - simpl. pose proof (load_store_same mem h (source_bytes data (Z.to_nat k))) as H.
    by rewrite length_source_bytes in H.
Qed.

(** C2. [memory_write] and [memory_read] do not fail when the size exceeds
    the block. The block behind handle 8304 has size 10; a write of 11
    bytes and a read of 11 bytes both return 0, and the eleventh byte lands
    at address 8314, which is the first byte of the name field of the next
    header: nothing is trimmed and the neighbouring header is overwritten. *)
Lemma write_and_read_past_block_return_success :
  is_handle demo_chunk_A 0 demo_block_A 8304 /\
  Memory.size demo_block_A < 11 /\
  (Memory.addr <$> Memchunk.memory_pool demo_chunk_A) !! 1%nat = Some 8314 /\
  fst (memory_write zero_memory (Some 8304) (Some eleven_bytes) 11) = 0 /\
  snd (memory_write zero_memory (Some 8304) (Some eleven_bytes) 11) 8314 = x0b /\
  fst (memory_read zero_memory (Some 8304) (Some eleven_bytes) 11) = 0.
Proof.
  repeat split; reflexivity.
Qed.

Lemma demo_chunk_A_is_alloc_result :
  memory_alloc zero_memory (demo_init 1024) 10 name_A
  = (Some 8304, Some demo_chunk_A).
Proof. reflexivity. Qed.

(** ** Freeing by name *)

Lemma free_scan_no_match pool block_name :
  existsb (name_matches block_name) pool = false ->
  free_scan pool block_name = None.
Proof.
  induction pool as [|current rest IH]; simpl; [done|].
  intros H. apply orb_false_iff in H as [Hcur Hrest].
  unfold name_matches in Hcur. rewrite Hcur. by rewrite IH.
Qed.

Lemma free_scan_match pool block_name :
  existsb (name_matches block_name) pool = true ->
  is_Some (free_scan pool block_name).
Proof.
  induction pool as [|current rest IH]; simpl; [done|].
  intros H. unfold name_matches in H at 1.
  destruct (negb (truthy (Memory.is_free current))
            && (strncmp (Memory.name current) block_name 32 =? 0));
    [by eexists|].
  simpl in H. destruct (IH H) as [[rest' sz] ->]. by eexists.
Qed.

(** C3, as the code has it. [memory_free] returns [void]. When the name
    matches no used block of the chunk, the call leaves [used_memory] and
    [free_memory] as they were; all it does is run the coalescing pass over
    the block list. *)
Theorem free_of_unknown_name_keeps_counters c block_name :
  existsb (name_matches block_name) (Memchunk.memory_pool c) = false ->
  memory_free (Some c) (Some block_name)
  = (tt, Some (Memchunk.mk (Memchunk.name c) (Memchunk.total_size c)
                 (coalesce (Memchunk.memory_pool c))
                 (Memchunk.used_memory c) (Memchunk.free_memory c)
                 (Memchunk.next c))).
Proof.
  intros H. unfold memory_free. by rewrite (free_scan_no_match _ _ H).
Qed.

Lemma free_of_unknown_name_keeps_counters_witness :
  existsb (name_matches name_Z) (Memchunk.memory_pool demo_chunk_A) = false /\
  memory_free (Some demo_chunk_A) (Some name_Z) = (tt, Some demo_chunk_A).
Proof.
  split; [reflexivity|].
  refine (free_of_unknown_name_keeps_counters demo_chunk_A name_Z _).
  reflexivity.
Defined.

(** C3, the claim refuted. In a chunk with one used block named "A",
    nothing that [memory_free] returns separates the call for the unknown
    name "Z" from the call for "A". *)
Lemma free_of_unknown_name_signals_nothing :
  existsb (name_matches name_Z) (Memchunk.memory_pool demo_chunk_A) = false /\
  existsb (name_matches name_A) (Memchunk.memory_pool demo_chunk_A) = true /\
  ~ signals_failure (fst (memory_free (Some demo_chunk_A) (Some name_Z)))
                    (fst (memory_free (Some demo_chunk_A) (Some name_A))).
Proof.
  split; [reflexivity|]. split; [reflexivity|].
  intros (test & Hfailed & Hok).
  destruct (fst (memory_free (Some demo_chunk_A) (Some name_Z))).
  destruct (fst (memory_free (Some demo_chunk_A) (Some name_A))).
  congruence.
Qed.

(** ** Coalescing *)

(** Two free neighbours are merged: the first takes the size of the second
    and of its header, and the second leaves the list. *)
Lemma coalesce_pair a b :
  truthy (Memory.is_free a) = true -> truthy (Memory.is_free b) = true ->
  coalesce [a; b]
  = [Memory.mk (Memory.addr a) (Memory.name a)
       (size_t_add (Memory.size a) (size_t_add sizeof_Memory (Memory.size b)))
       (Memory.is_free a)].
Proof. intros Ha Hb. simpl. by rewrite Ha, Hb. Qed.

(** After a merge the pass moves on to the successor of the grown block,
    so the third block of a free run is left on its own. *)
Lemma coalesce_run_of_three a b c :
  truthy (Memory.is_free a) = true -> truthy (Memory.is_free b) = true ->
  truthy (Memory.is_free c) = true ->
  coalesce [a; b; c]
  = [Memory.mk (Memory.addr a) (Memory.name a)
       (size_t_add (Memory.size a) (size_t_add sizeof_Memory (Memory.size b)))
       (Memory.is_free a);
     c].
Proof. intros Ha Hb Hc. simpl. by rewrite Ha, Hb. Qed.

(** C4. The coalescing pass of [memory_free] does not collapse a run of
    three free blocks. After [memc_init("C", 1024)], three allocations of 10
    bytes named "A", "B", "C", and the calls [memory_free("A")] and
    [memory_free("C")], the list is: free 10, used 10, free 780. The call
    [memory_free("B")] then leaves two neighbouring free blocks, of 132 and
    780 bytes, where a full collapse gives one block of 1024 bytes. *)
Theorem free_leaves_run_of_three_in_two_blocks :
  let allocated :=
    then_alloc (then_alloc (then_alloc (demo_init 1024) 10 name_A)
                  10 name_B) 10 name_C in
  let before := then_free (then_free allocated name_A) name_C in
  layout allocated = [(10, 0); (10, 0); (10, 0); (658, 1)] /\
  layout before = [(10, 1); (10, 0); (780, 1)] /\
  layout (then_free before name_B) = [(132, 1); (780, 1)].
Proof.
  repeat split; vm_compute; reflexivity.
Qed.

(** ** The chunk registry *)

Lemma memc_init_step_keeps_global_list st mem chunk_ptr pool_ptr name N :
  global_memchunk_list
    (snd (memc_init_step st mem chunk_ptr pool_ptr name N))
  = global_memchunk_list st.
Proof.
  unfold memc_init_step.
  destruct (memc_init mem chunk_ptr pool_ptr name N); [|done].
  by destruct chunk_ptr.
Qed.

Lemma not_reachable_from_NULL chunks a : ~ reachable chunks None a.
Proof. intros H. inversion H. Qed.

Lemma mem_clr_loop_NULL rounds chunks : mem_clr_loop rounds chunks None = chunks.
Proof. by destruct rounds. Qed.

(** The walk of [mem_clr] is over within as many rounds as there are live
    chunks: more rounds do not change its result. *)
Lemma mem_clr_loop_enough_rounds n :
  forall m (chunks : gmap Z Memchunk.t) current_chunk,
    (size chunks <= n)%nat -> (size chunks <= m)%nat ->
    mem_clr_loop n chunks current_chunk = mem_clr_loop m chunks current_chunk.
Proof.
  induction n as [|n IH]; intros m chunks cur Hn Hm.
  - assert (chunks = ∅) as -> by (apply map_size_empty_inv; lia).
    destruct m, cur; simpl; try done.
  - destruct m as [|m].
    + assert (chunks = ∅) as -> by (apply map_size_empty_inv; lia).
      destruct cur; simpl; done.
    + destruct cur as [a|]; simpl; [|done].
      destruct (chunks !! a) as [c|] eqn:Ha; [|done].
      apply IH; rewrite map_size_delete, Ha; lia.
Qed.

(** C7. [memc_init] does not register the chunk it creates. In the run of
    main.c, from the initial state where [global_memchunk_list] is NULL,
    [memc_init("joyc", 1024*1024)] returns a live chunk but leaves the
    global list NULL: the chunk is not reachable from the registry head, and
    the [mem_clr] that follows does not tear it down. *)
Theorem memc_init_leaves_registry_empty :
  exists c st,
    memc_init_step initial_state zero_memory (Some 4096) (Some 8192)
      [x6a; x6f; x79; x63] (1024 * 1024)
    = (Some 4096, st) /\
    live_chunks st !! 4096 = Some c /\
    global_memchunk_list st = None /\
    ~ registered st 4096 /\
    live_chunks (mem_clr st) !! 4096 = Some c.
Proof.
  eexists _, _. split; [reflexivity|]. simpl.
  split; [apply lookup_insert_eq|]. split; [reflexivity|].
  split; [apply not_reachable_from_NULL|].
  unfold mem_clr. simpl. rewrite mem_clr_loop_NULL. apply lookup_insert_eq.
Qed.

(** ** Names *)

Lemma strncmp_take_r a b n : strncmp a (take n b) n = strncmp a b n.
Proof.
  revert a b. induction n as [|n IH]; intros a b; [done|].
  unfold strncmp; fold strncmp.
  destruct b as [|cb b]; [done|]. simpl.
  destruct (negb (Byte.eqb (hd x00 a) cb)); [done|].
  destruct (is_nul (hd x00 a)); [done|]. apply IH.
Qed.

Lemma strncpy_take src n : strncpy (take n src) n = strncpy src n.
Proof.
  revert src. induction n as [|n IH]; intros src; [done|].
  unfold strncpy; fold strncpy.
  destruct src as [|c src]; [done|]. simpl.
  destruct (is_nul c); [done|]. by rewrite IH.
Qed.

Lemma free_scan_take pool block_name :
  free_scan pool (take 32 block_name) = free_scan pool block_name.
Proof.
  induction pool as [|current rest IH]; simpl; [done|].
  by rewrite strncmp_take_r, IH.
Qed.

(** C10. Names are compared and stored over 32 bytes at most: for two
    names that agree on their first 32 bytes, [memory_free] gives the same
    result for either name, hence frees the same block, and [memory_alloc]
    stores the same name for either. *)
Theorem names_matter_up_to_32_bytes mem chunk size name1 name2 :
  take 32 name1 = take 32 name2 ->
  memory_free chunk (Some name1) = memory_free chunk (Some name2) /\
  memory_alloc mem chunk size name1 = memory_alloc mem chunk size name2.
Proof.
  intros Heq. split.
  - destruct chunk as [c|]; [|done]. unfold memory_free.
    by rewrite <- (free_scan_take _ name1), <- (free_scan_take _ name2), Heq.
  - destruct chunk as [c|]; [|done]. unfold memory_alloc, allocate_block.
    by rewrite <- (strncpy_take name1), <- (strncpy_take name2), Heq.
Qed.

Lemma names_matter_up_to_32_bytes_witness :
  take 32 (long_name x58) = take 32 (long_name x59) /\
  long_name x58 <> long_name x59 /\
  let chunk := then_alloc (Some demo_chunk) 10 (long_name x58) in
  memory_free chunk (Some (long_name x58))
  = memory_free chunk (Some (long_name x59)) /\
  layout (then_free chunk (long_name x59)) = [(1024, 1)].
Proof.
  split; [reflexivity|]. split; [discriminate|].
  split; [|vm_compute; reflexivity].
  apply (names_matter_up_to_32_bytes zero_memory
           (then_alloc (Some demo_chunk) 10 (long_name x58)) 10
           (long_name x58) (long_name x59)).
  reflexivity.
Defined.

(** * Further properties of the code *)

(** ** memory_alloc: failure and success *)

Lemma lookup_to_elem_of {A} (l : list A) (i : nat) (x : A) :
  l !! i = Some x -> x ∈ l.
Proof. intros H. apply list_elem_of_lookup. by exists i. Qed.

(** X1. [memory_alloc] on a chunk returns NULL exactly when the requested
    size is 0 or no free block has a size between the request and the
    sentinel [(size_t)-1] (excluded); the sum of the free blocks plays no
    part. A call that returns NULL leaves the chunk as it was. *)
Theorem alloc_returns_NULL_iff mem c size block_name :
  (fst (memory_alloc mem (Some c) size block_name) = None <->
   size = 0 \/
   forall b, b ∈ Memchunk.memory_pool c -> eligible size b = true ->
             SIZE_MAX <= Memory.size b) /\
  (fst (memory_alloc mem (Some c) size block_name) = None ->
   snd (memory_alloc mem (Some c) size block_name) = Some c).
Proof.
  unfold memory_alloc.
  pose proof (find_best_fit_spec size (Memchunk.memory_pool c)) as Hspec.
  destruct (size =? 0) eqn:Hz.
  - apply Z.eqb_eq in Hz. simpl. split; [|done]. split; [by left|done].
  - apply Z.eqb_neq in Hz.
    destruct (find_best_fit (Memchunk.memory_pool c) size) as [[i bf]|];
      simpl in *.
    + split; [|done]. split; [done|]. intros [?|Hnone]; [done|].
      destruct Hspec as (Hi & Hel & Hlt & _).
      specialize (Hnone bf (lookup_to_elem_of _ _ _ Hi) Hel). lia.
    + split; [|done]. split; [|done]. intros _. right.
      intros b Hb Hel. apply list_elem_of_lookup in Hb as [j Hj].
      by apply (Hspec j).
Qed.

(** X2. The block behind a handle that [memory_alloc] returns is the best
    fit of the chunk as it was before the call: it was free, at least as
    large as the request and smaller than [(size_t)-1]; no free block that
    is large enough was smaller, and none of the same size came earlier in
    the list. *)
Theorem alloc_hands_out_best_fit mem c size block_name h c' :
  memory_alloc mem (Some c) size block_name = (Some h, c') ->
  exists i bf,
    Memchunk.memory_pool c !! i = Some bf /\
    h = Memory.addr bf + sizeof_Memory /\
    truthy (Memory.is_free bf) = true /\
    size <= Memory.size bf < SIZE_MAX /\
    forall j b,
      Memchunk.memory_pool c !! j = Some b ->
      truthy (Memory.is_free b) = true -> size <= Memory.size b ->
      Memory.size bf <= Memory.size b /\
      ((j < i)%nat -> Memory.size bf < Memory.size b).
Proof.
  intros Halloc.
  destruct (memory_alloc_returns_best_fit size mem c block_name h c' Halloc)
    as (i & bf & (Hi & Hel & Hlt & Hmin) & ->).
  exists i, bf. unfold eligible in Hel.
  apply andb_true_iff in Hel as [Hfree Hle]. apply Z.leb_le in Hle.
  split; [done|]. split; [done|]. split; [done|]. split; [lia|].
  intros j b Hj Hb Hsz. apply (Hmin j b Hj).
  unfold eligible. rewrite Hb. simpl. by apply Z.leb_le.
Qed.

Lemma alloc_hands_out_best_fit_witness :
  memory_alloc zero_memory (Some demo_chunk) 10 name_A
  = (Some 8304, Some demo_chunk_A) /\
  exists i bf,
    Memchunk.memory_pool demo_chunk !! i = Some bf /\
    8304 = Memory.addr bf + sizeof_Memory /\
    10 <= Memory.size bf < SIZE_MAX.
Proof.
  split; [reflexivity|].
  destruct (alloc_hands_out_best_fit zero_memory demo_chunk 10 name_A 8304
              (Some demo_chunk_A)) as (i & bf & Hi & Hh & _ & Hsz & _);
    [reflexivity|].
  by exists i, bf.
Defined.





(** ** memory_free: which block goes, which blocks stay *)

Lemma free_scan_first pool block_name :
  forall i b,
    pool !! i = Some b ->
    name_matches block_name b = true ->
    (forall j b', (j < i)%nat -> pool !! j = Some b' ->
                  name_matches block_name b' = false) ->
    free_scan pool block_name
    = Some (<[i := Memory.mk (Memory.addr b) (Memory.name b) (Memory.size b) 1]>
              pool,
            Memory.size b).
Proof.
  induction pool as [|current rest IH]; intros i b Hi Hb Hfirst; [done|].
  destruct i as [|i]; simpl in *.
  - injection Hi as ->. unfold name_matches in Hb. by rewrite Hb.
  - pose proof (Hfirst O current ltac:(lia) eq_refl) as Hcur.
    unfold name_matches in Hcur. rewrite Hcur.
    rewrite (IH i b Hi Hb); [done|].
    intros j b' Hj Hb'. apply (Hfirst (S j) b'); [lia|done].
Qed.

(** X4. Block names need not be unique: [memory_free] releases the first
    used block in list order whose name matches, and no other. That block
    keeps its address, name and size and gets [is_free = 1]; [used_memory]
    drops and [free_memory] grows by the size of the block; the coalescing
    pass then runs over the list. *)
Theorem free_releases_first_matching_block c block_name i b :
  Memchunk.memory_pool c !! i = Some b ->
  name_matches block_name b = true ->
  (forall j b', (j < i)%nat -> Memchunk.memory_pool c !! j = Some b' ->
                name_matches block_name b' = false) ->
  memory_free (Some c) (Some block_name)
  = (tt, Some (Memchunk.mk (Memchunk.name c) (Memchunk.total_size c)
                 (coalesce
                    (<[i := Memory.mk (Memory.addr b) (Memory.name b)
                             (Memory.size b) 1]> (Memchunk.memory_pool c)))
                 (size_t_sub (Memchunk.used_memory c) (Memory.size b))
                 (size_t_add (Memchunk.free_memory c) (Memory.size b))
                 (Memchunk.next c))).
Proof.
  intros Hi Hb Hfirst. unfold memory_free.
  by rewrite (free_scan_first _ _ i b Hi Hb Hfirst).
Qed.

Lemma free_releases_first_matching_block_witness :
  layout (Some twice_A_chunk) = [(10, 0); (30, 0); (20, 0); (628, 1)] /\
  name_matches name_A <$> Memchunk.memory_pool twice_A_chunk
  = [true; false; true; false] /\
  layout (snd (memory_free (Some twice_A_chunk) (Some name_A)))
  = [(10, 1); (30, 0); (20, 0); (628, 1)].
Proof.
  split; [vm_compute; reflexivity|]. split; [vm_compute; reflexivity|].
  rewrite (free_releases_first_matching_block twice_A_chunk name_A 0%nat
             (Memory.mk 8192 (strncpy name_A 32) 10 0)).
  - vm_compute. reflexivity.
  - vm_compute. reflexivity.
  - vm_compute. reflexivity.
  - intros j b' Hj. lia.
Defined.

(** The coalescing pass, case by case. *)
Lemma coalesce_cases (P : list Memory -> Prop) :
  P [] ->
  (forall a, P [a]) ->
  (forall a b rest,
     truthy (Memory.is_free a) && truthy (Memory.is_free b) = true ->
     P rest -> P (a :: b :: rest)) ->
  (forall a b rest,
     truthy (Memory.is_free a) && truthy (Memory.is_free b) = false ->
     P (b :: rest) -> P (a :: b :: rest)) ->
  forall pool, P pool.
Proof.
  intros Hnil Hone Hmerge Hskip pool.
  assert (forall n pool, (length pool <= n)%nat -> P pool) as Hall;
    [|by apply (Hall (length pool))].
  clear pool. induction n as [|n IH]; intros pool Hlen.
  - destruct pool; [done|simpl in Hlen; lia].
  - destruct pool as [|a [|b rest]]; [done|done|]. simpl in Hlen.
    destruct (truthy (Memory.is_free a) && truthy (Memory.is_free b)) eqn:E.
    + apply Hmerge; [done|]. apply IH. lia.
    + apply Hskip; [done|]. apply IH. simpl. lia.
Qed.

Lemma coalesce_merge a b rest :
  truthy (Memory.is_free a) && truthy (Memory.is_free b) = true ->
  coalesce (a :: b :: rest)
  = Memory.mk (Memory.addr a) (Memory.name a)
      (size_t_add (Memory.size a) (size_t_add sizeof_Memory (Memory.size b)))
      (Memory.is_free a)
    :: coalesce rest.
Proof. intros H. simpl. by rewrite H. Qed.

Lemma coalesce_skip a b rest :
  truthy (Memory.is_free a) && truthy (Memory.is_free b) = false ->
  coalesce (a :: b :: rest) = a :: coalesce (b :: rest).
Proof. intros H. simpl. by rewrite H. Qed.






Lemma existsb_false_iff {A} (f : A -> bool) (l : list A) :
  existsb f l = false <-> forall x, x ∈ l -> f x = false.
Proof.
  induction l as [|y l IH]; simpl.
  - split; [intros _ x Hx; by apply elem_of_nil in Hx|done].
  - rewrite orb_false_iff, IH. split.
    + intros [Hy Hl] x Hx. apply elem_of_cons in Hx as [->|Hx]; auto.
    + intros H. split; [apply H; by left|]. intros x Hx. apply H. by right.
Qed.

Lemma coalesce_adds_no_match block_name pool :
  existsb (name_matches block_name) pool = false ->
  existsb (name_matches block_name) (coalesce pool) = false.
Proof.
  induction pool as [| |a b rest Hc IH|a b rest Hc IH] using coalesce_cases;
    [done|done| |].
  - rewrite coalesce_merge by done. simpl.
    intros H. apply orb_false_iff in H as [_ H].
    apply orb_false_iff in H as [_ H]. rewrite (IH H), orb_false_r.
    apply andb_true_iff in Hc as [Ha _].
    unfold name_matches. simpl. by rewrite Ha.
  - rewrite coalesce_skip by done. simpl.
    intros H. apply orb_false_iff in H as [Ha H]. rewrite Ha. by apply IH.
Qed.

(** X6. Freeing a name twice does no harm to the counters: when exactly
    one used block matches the name, the first [memory_free] moves the size
    of that block from [used_memory] to [free_memory], and a second
    [memory_free] under the same name finds no used block and leaves both
    counters as they are. *)
Theorem second_free_of_a_name_changes_no_counter c block_name i b :
  Memchunk.memory_pool c !! i = Some b ->
  name_matches block_name b = true ->
  (forall j b', j <> i -> Memchunk.memory_pool c !! j = Some b' ->
                name_matches block_name b' = false) ->
  exists c1 c2,
    memory_free (Some c) (Some block_name) = (tt, Some c1) /\
    memory_free (Some c1) (Some block_name) = (tt, Some c2) /\
    Memchunk.used_memory c1
    = size_t_sub (Memchunk.used_memory c) (Memory.size b) /\
    Memchunk.free_memory c1
    = size_t_add (Memchunk.free_memory c) (Memory.size b) /\
    Memchunk.used_memory c2 = Memchunk.used_memory c1 /\
    Memchunk.free_memory c2 = Memchunk.free_memory c1.
Proof.
  intros Hi Hb Hothers.
  assert (free_scan (Memchunk.memory_pool c) block_name
          = Some (<[i := Memory.mk (Memory.addr b) (Memory.name b)
                            (Memory.size b) 1]> (Memchunk.memory_pool c),
                  Memory.size b)) as Hscan.
  { apply free_scan_first; [done|done|].
    intros j b' Hj. apply Hothers. lia. }
  eexists _, _. split; [|split].
  - unfold memory_free. rewrite Hscan. reflexivity.
  - unfold memory_free at 1. simpl.
    rewrite free_scan_no_match; [reflexivity|].
    apply coalesce_adds_no_match, existsb_false_iff.
    intros x Hx. apply list_elem_of_lookup in Hx as [j Hj].
    destruct (decide (j = i)) as [->|Hne].
    + rewrite list_lookup_insert_eq in Hj by (by eapply lookup_lt_Some).
      injection Hj as <-. reflexivity.
    + rewrite list_lookup_insert_ne in Hj by done. by apply (Hothers j).
  - simpl. done.
Qed.

Lemma second_free_of_a_name_changes_no_counter_witness :
  exists c1 c2,
    memory_free (Some demo_chunk_A) (Some name_A) = (tt, Some c1) /\
    memory_free (Some c1) (Some name_A) = (tt, Some c2) /\
    Memchunk.used_memory c1 = 0 /\ Memchunk.used_memory c2 = 0 /\
    Memchunk.free_memory c1 = 1024 /\ Memchunk.free_memory c2 = 1024.
Proof.
  destruct (second_free_of_a_name_changes_no_counter demo_chunk_A name_A
              0%nat demo_block_A)
    as (c1 & c2 & H1 & H2 & Hu1 & Hf1 & Hu2 & Hf2).
  - reflexivity.
  - vm_compute. reflexivity.
  - intros [|[|j]] b' Hj Hb'; [done| |done].
    injection Hb' as <-. vm_compute. reflexivity.
  - exists c1, c2. split; [exact H1|]. split; [exact H2|].
    rewrite Hu2, Hf2, Hu1, Hf1. repeat split; vm_compute; reflexivity.
Defined.

(** ** The layout of the pool *)

Lemma tiles_le start pool stop : tiles start pool stop -> start <= stop.
Proof.
  revert start. induction pool as [|b rest IH]; intros start; simpl.
  - intros ->. lia.
  - intros (_ & Hsz & Hrest). apply IH in Hrest.
    pose proof sizeof_Memory_pos. lia.
Qed.

Lemma tiles_app start l1 l2 stop :
  tiles start (l1 ++ l2) stop <->
  exists mid, tiles start l1 mid /\ tiles mid l2 stop.
Proof.
  revert start. induction l1 as [|b l1 IH]; intros start; simpl.
  - split; [intros H; by exists start|by intros (mid & -> & H)].
  - rewrite IH. split.
    + intros (Ha & Hs & mid & H1 & H2). by exists mid.
    + intros (mid & (Ha & Hs & H1) & H2). repeat split; [done|done|].
      by exists mid.
Qed.

Lemma tiles_lookup start pool stop i b :
  tiles start pool stop -> pool !! i = Some b ->
  start <= Memory.addr b /\ 0 <= Memory.size b /\
  Memory.addr b + sizeof_Memory + Memory.size b <= stop.
Proof.
  pose proof sizeof_Memory_pos as Hhdr.
  revert start i. induction pool as [|b0 rest IH]; intros start i; [done|].
  simpl. intros (Ha & Hs & Hrest) Hi. destruct i as [|i]; simpl in Hi.
  - injection Hi as ->. apply tiles_le in Hrest. lia.
  - destruct (IH _ _ Hrest Hi) as (H1 & H2 & H3). lia.
Qed.

Lemma tiles_free_scan pool block_name :
  forall start stop pool' sz,
    free_scan pool block_name = Some (pool', sz) ->
    tiles start pool stop -> tiles start pool' stop.
Proof.
  induction pool as [|current rest IH]; intros start stop pool' sz Hscan; [done|].
  simpl in Hscan.
  destruct (negb (truthy (Memory.is_free current))
            && (strncmp (Memory.name current) block_name 32 =? 0)).
  - by injection Hscan as <- <-.
  - destruct (free_scan rest block_name) as [[rest' sz']|] eqn:Hrest; [|done].
    injection Hscan as <- <-. simpl. intros (Ha & Hs & Ht).
    repeat split; [done|done|]. by apply (IH _ _ rest' sz').
Qed.

Lemma tiles_coalesce pool :
  forall start stop,
    stop - start <= SIZE_MAX + sizeof_Memory ->
    tiles start pool stop -> tiles start (coalesce pool) stop.
Proof.
  pose proof sizeof_Memory_pos as Hhdr.
  induction pool as [| |a b rest Hc IH|a b rest Hc IH] using coalesce_cases;
    intros start stop Hfit; [done|done| |].
  - rewrite coalesce_merge by done.
    intros (Ha & Hsa & Hb & Hsb & Hrest).
    pose proof (tiles_le _ _ _ Hrest) as Hle.
    assert (size_t_add (Memory.size a) (size_t_add sizeof_Memory (Memory.size b))
            = Memory.size a + sizeof_Memory + Memory.size b) as Hsum.
    { rewrite (size_t_add_small sizeof_Memory) by lia.
      rewrite size_t_add_small by lia. lia. }
    simpl. rewrite Hsum. repeat split; [done|lia|].
    apply IH; [lia|].
    replace (start + sizeof_Memory
             + (Memory.size a + sizeof_Memory + Memory.size b))
      with (start + sizeof_Memory + Memory.size a + sizeof_Memory
            + Memory.size b) by lia.
    done.
  - rewrite coalesce_skip by done.
    intros (Ha & Hsa & Hrest). pose proof (tiles_le _ _ _ Hrest) as Hle.
    split; [done|]. split; [done|]. apply IH; [lia|done].
Qed.

Lemma tiles_allocate_block mem best_fit size block_name :
  0 < size -> size <= Memory.size best_fit ->
  0 <= Memory.addr best_fit ->
  Memory.addr best_fit + sizeof_Memory + Memory.size best_fit <= SIZE_MAX ->
  tiles (Memory.addr best_fit)
    (allocate_block mem best_fit size block_name)
    (Memory.addr best_fit + sizeof_Memory + Memory.size best_fit).
Proof.
  pose proof sizeof_Memory_pos as Hhdr. intros Hpos Hle Ha Hfit.
  unfold allocate_block.
  destruct (size_t_add size sizeof_Memory <? Memory.size best_fit) eqn:Hsplit.
  - apply Z.ltb_lt in Hsplit.
    pose proof (new_block_size mem best_fit size Hpos ltac:(lia) Hsplit
                  ltac:(lia)) as Hsz.
    pose proof (new_block_addr mem best_fit size Ha ltac:(lia) ltac:(lia))
      as Haddr.
    rewrite size_t_add_small in Hsplit by lia.
    cbn [tiles]. rewrite Haddr, Hsz. simpl. repeat split; lia.
  - simpl. repeat split; lia.
Qed.

Lemma run_operation_tiles start stop c o :
  0 <= start -> stop <= SIZE_MAX -> operation_ok o ->
  tiles start (Memchunk.memory_pool c) stop ->
  tiles start (Memchunk.memory_pool (run_operation c o)) stop.
Proof.
  pose proof sizeof_Memory_pos as Hhdr. intros Hstart Hfit Hok Htiles.
  destruct o as [mem size block_name|block_name]; simpl in *.
  - destruct (size =? 0) eqn:Hz; [done|]. apply Z.eqb_neq in Hz.
    destruct (find_best_fit (Memchunk.memory_pool c) size) as [[i bf]|] eqn:Hfind;
      [|done].
    simpl. destruct (find_best_fit_take_drop _ _ _ _ Hfind) as (Hpool & Hle & _).
    rewrite Hpool in Htiles.
    apply tiles_app in Htiles as (mid & Hpre & Hmid).
    simpl in Hmid. destruct Hmid as (Haddr & Hsz & Hpost).
    pose proof (tiles_le _ _ _ Hpre). pose proof (tiles_le _ _ _ Hpost).
    apply tiles_app. exists mid. split; [done|].
    apply tiles_app. exists (mid + sizeof_Memory + Memory.size bf).
    split; [|done]. rewrite <- Haddr.
    unfold is_size_t in Hok. apply tiles_allocate_block; lia.
  - destruct (free_scan (Memchunk.memory_pool c) block_name)
      as [[pool' sz]|] eqn:Hscan; simpl.
    + apply tiles_coalesce; [lia|].
      by apply (tiles_free_scan (Memchunk.memory_pool c) block_name _ _ pool' sz).
    + apply tiles_coalesce; [lia|done].
Qed.

Lemma memc_init_tiles mem chunk_ptr p name N c0 :
  0 <= N ->
  memc_init mem chunk_ptr (Some p) name N = Some c0 ->
  tiles p (Memchunk.memory_pool c0) (p + sizeof_Memory + N).
Proof.
  intros HN Hinit. unfold memc_init in Hinit. destruct chunk_ptr; [|done].
  injection Hinit as <-. simpl. done.
Qed.

Lemma run_operations_tiles start stop ops :
  0 <= start -> stop <= SIZE_MAX -> Forall operation_ok ops ->
  forall c,
    tiles start (Memchunk.memory_pool c) stop ->
    tiles start (Memchunk.memory_pool (run_operations c ops)) stop.
Proof.
  intros Hstart Hfit Hops. unfold run_operations.
  induction Hops as [|o ops Ho Hops IH]; intros c Hinv; simpl; [done|].
  apply IH. by apply run_operation_tiles.
Qed.

(** X7. The blocks always tile the backing allocation exactly. After
    [memc_init(name, N)] whose pool allocation of [N + sizeof(Memory)]
    bytes lies inside the address space, and after any sequence of
    [memory_alloc] and [memory_free] calls, the first header is at the address [malloc] returned, every
    further header starts where the payload of the block before it ends,
    and the last payload ends [N + sizeof(Memory)] bytes after the start:
    a split takes the new header out of the payload it divides, and a merge
    gives the absorbed header back. *)
Theorem pool_tiles_backing_allocation mem chunk_ptr p name N c0 ops :
  0 <= N -> 0 <= p -> p + sizeof_Memory + N <= SIZE_MAX ->
  memc_init mem chunk_ptr (Some p) name N = Some c0 ->
  Forall operation_ok ops ->
  tiles p (Memchunk.memory_pool (run_operations c0 ops))
    (p + sizeof_Memory + N).
Proof.
  intros HN Hp Hfit Hinit Hops.
  apply run_operations_tiles; [lia|lia|done|].
  by apply (memc_init_tiles mem chunk_ptr p name N).
Qed.

Lemma pool_tiles_backing_allocation_witness :
  0 <= 1024 /\ 8192 + sizeof_Memory + 1024 <= SIZE_MAX /\
  memc_init zero_memory (Some 4096) (Some 8192) name_C 1024 = Some demo_chunk /\
  tiles 8192
    (Memchunk.memory_pool
       (run_operations demo_chunk
          [op_alloc zero_memory 10 name_A; op_alloc zero_memory 20 name_B;
           op_free name_A; op_alloc zero_memory 5 name_C; op_free name_B]))
    (8192 + sizeof_Memory + 1024).
Proof.
  split; [lia|]. split; [vm_compute; discriminate|]. split; [reflexivity|].
  apply (pool_tiles_backing_allocation zero_memory (Some 4096) 8192 name_C
           1024 demo_chunk).
  - lia.
  - lia.
  - vm_compute. discriminate.
  - reflexivity.
  - repeat (constructor;
            [simpl; try exact I; unfold is_size_t, SIZE_MAX; lia|]).
    constructor.
Defined.

Lemma tiles_lookup_lt start pool stop :
  forall i j b b',
    tiles start pool stop -> (i < j)%nat ->
    pool !! i = Some b -> pool !! j = Some b' ->
    Memory.addr b + sizeof_Memory + Memory.size b <= Memory.addr b'.
Proof.
  revert start. induction pool as [|b0 rest IH]; intros start i j b b'; [done|].
  simpl. intros (Ha & Hs & Hrest) Hij Hi Hj.
  destruct j as [|j]; [lia|]. simpl in Hj. destruct i as [|i]; simpl in Hi.
  - injection Hi as ->. destruct (tiles_lookup _ _ _ _ _ Hrest Hj). lia.
  - apply (IH _ i j b b' Hrest); [lia|done|done].
Qed.

(** X8. No block ever leaves the backing allocation or overlaps another
    one. Under the conditions of X7, the payload of every block of the list
    starts at or after the first payload address and ends at or before the
    end of the [N + sizeof(Memory)] bytes that [memc_init] asked [malloc]
    for; its size is between 0 and [N]; and it ends before the header of
    every block that comes later in the list. *)
Theorem blocks_stay_inside_backing_allocation
    mem chunk_ptr p name N c0 ops i b :
  0 <= N -> 0 <= p -> p + sizeof_Memory + N <= SIZE_MAX ->
  memc_init mem chunk_ptr (Some p) name N = Some c0 ->
  Forall operation_ok ops ->
  Memchunk.memory_pool (run_operations c0 ops) !! i = Some b ->
  p + sizeof_Memory <= Memory.addr b + sizeof_Memory /\
  Memory.addr b + sizeof_Memory + Memory.size b <= p + sizeof_Memory + N /\
  0 <= Memory.size b <= N /\
  forall j b',
    (i < j)%nat ->
    Memchunk.memory_pool (run_operations c0 ops) !! j = Some b' ->
    Memory.addr b + sizeof_Memory + Memory.size b <= Memory.addr b'.
Proof.
  intros HN Hp Hfit Hinit Hops Hi.
  assert (tiles p (Memchunk.memory_pool (run_operations c0 ops))
            (p + sizeof_Memory + N)) as Htiles.
  { apply run_operations_tiles; [lia|lia|done|].
    by apply (memc_init_tiles mem chunk_ptr p name N). }
  destruct (tiles_lookup _ _ _ _ _ Htiles Hi) as (H1 & H2 & H3).
  repeat split; try lia.
  intros j b' Hij Hj. by apply (tiles_lookup_lt _ _ _ i j b b' Htiles).
Qed.

Lemma blocks_stay_inside_backing_allocation_witness :
  exists b,
    Memchunk.memory_pool
      (run_operations demo_chunk
         [op_alloc zero_memory 10 name_A; op_alloc zero_memory 20 name_B])
    !! 2%nat = Some b /\
    Memory.addr b + sizeof_Memory + Memory.size b <= 8192 + sizeof_Memory + 1024 /\
    0 <= Memory.size b <= 1024.
Proof.
  eexists. split; [vm_compute; reflexivity|].
  destruct (blocks_stay_inside_backing_allocation zero_memory (Some 4096) 8192
              name_C 1024 demo_chunk
              [op_alloc zero_memory 10 name_A; op_alloc zero_memory 20 name_B]
              2%nat (Memory.mk 8446 (load_bytes zero_memory 8446 32) 770 1))
    as (_ & Hend & Hsz & _).
  - lia.
  - lia.
  - vm_compute. discriminate.
  - reflexivity.
  - repeat (constructor;
            [simpl; try exact I; unfold is_size_t, SIZE_MAX; lia|]).
    constructor.
  - vm_compute. reflexivity.
  - split; [exact Hend|exact Hsz].
Defined.

(** X9. [memc_dealloc] hands the header of every block of the list to
    [free], and then the chunk. Under the conditions of X7 only the first of
    these headers is an address that [malloc] returned: every later block
    lies strictly inside the pool allocation, so after any split that is
    still in place [free] is called on a pointer into the middle of that
    allocation. *)
Theorem memc_dealloc_frees_headers_inside_the_pool
    mem chunk_ptr p name N c0 ops st a i b :
  0 <= N -> 0 <= p -> p + sizeof_Memory + N <= SIZE_MAX ->
  memc_init mem chunk_ptr (Some p) name N = Some c0 ->
  Forall operation_ok ops ->
  live_chunks st !! a = Some (run_operations c0 ops) ->
  Memchunk.memory_pool (run_operations c0 ops) !! S i = Some b ->
  Memory.addr b ∈ fst (memc_dealloc_step st (Some a)) /\
  p < Memory.addr b < p + sizeof_Memory + N.
Proof.
  pose proof sizeof_Memory_pos as Hhdr.
  intros HN Hp Hfit Hinit Hops Hlive Hi.
  assert (tiles p (Memchunk.memory_pool (run_operations c0 ops))
            (p + sizeof_Memory + N)) as Htiles.
  { apply run_operations_tiles; [lia|lia|done|].
    by apply (memc_init_tiles mem chunk_ptr p name N). }
  split.
  - unfold memc_dealloc_step. rewrite Hlive. simpl. unfold memc_dealloc_frees.
    apply elem_of_app. left. apply list_elem_of_fmap. exists b.
    split; [done|]. by apply (lookup_to_elem_of _ (S i)).
  - destruct (Memchunk.memory_pool (run_operations c0 ops)) as [|b0 rest] eqn:E;
      [done|].
    destruct (tiles_lookup _ _ _ _ _ Htiles Hi) as (_ & Hs & Hend).
    pose proof (tiles_lookup_lt _ _ _ O (S i) b0 b Htiles ltac:(lia)
                  eq_refl Hi) as Hafter.
    destruct (tiles_lookup _ _ _ O b0 Htiles eq_refl) as (Hstart & Hs0 & _).
    lia.
Qed.

Lemma memc_dealloc_frees_headers_inside_the_pool_witness :
  fst (memc_dealloc_step one_split_state (Some 4096)) = [8192; 8314; 4096] /\
  8314 ∈ fst (memc_dealloc_step one_split_state (Some 4096)) /\
  8192 < 8314 < 8192 + sizeof_Memory + 1024.
Proof.
  split; [vm_compute; reflexivity|].
  apply (memc_dealloc_frees_headers_inside_the_pool zero_memory (Some 4096)
           8192 name_C 1024 demo_chunk [op_alloc zero_memory 10 name_A]
           one_split_state 4096 0%nat (new_block zero_memory demo_block 10)).
  - lia.
  - lia.
  - vm_compute. discriminate.
  - reflexivity.
  - repeat (constructor;
            [simpl; try exact I; unfold is_size_t, SIZE_MAX; lia|]).
    constructor.
  - vm_compute. reflexivity.
  - vm_compute. reflexivity.
Defined.

(** ** memory_alloc followed by memory_free *)

Lemma byte_eqb_refl c : Byte.eqb c c = true.
Proof. by apply byte_dec_lb. Qed.

(** The name [strncpy] stores compares equal, under [strncmp] over 32
    bytes, to the name it was copied from. *)
Lemma strncmp_strncpy_self n : forall s, strncmp (strncpy s n) s n = 0.
Proof.
  induction n as [|n IH]; intros s; [done|].
  unfold strncpy; fold strncpy. destruct s as [|c s].
  - unfold strncmp. simpl. reflexivity.
  - destruct (is_nul c) eqn:Hc.
    + unfold is_nul in Hc. apply byte_dec_bl in Hc. subst c.
      unfold strncmp. simpl. reflexivity.
    + unfold strncmp; fold strncmp. simpl.
      rewrite byte_eqb_refl, Hc. simpl. apply IH.
Qed.








(** ** mem_clr *)

Lemma mem_clr_loop_only_deletes n :
  forall (chunks : gmap Z Memchunk.t) current_chunk k,
    chunks !! k = None ->
    mem_clr_loop n chunks current_chunk !! k = None.
Proof.
  induction n as [|n IH]; intros chunks cur k Hk; [done|].
  destruct cur as [a|]; simpl; [|done].
  destruct (chunks !! a) as [c|] eqn:Ha; [|done].
  apply IH. rewrite lookup_delete. by case_decide.
Qed.

Lemma reachable_delete (chunks : gmap Z Memchunk.t) x current_chunk a :
  reachable (delete x chunks) current_chunk a ->
  reachable chunks current_chunk a.
Proof.
  induction 1 as [a c Ha|a c b Ha Hnext IH].
  - apply lookup_delete_Some in Ha as [_ Ha]. by eapply reachable_here.
  - apply lookup_delete_Some in Ha as [_ Ha]. by eapply reachable_next.
Qed.

Lemma mem_clr_loop_keeps_unreachable n :
  forall (chunks : gmap Z Memchunk.t) current_chunk a,
    ~ reachable chunks current_chunk a ->
    mem_clr_loop n chunks current_chunk !! a = chunks !! a.
Proof.
  induction n as [|n IH]; intros chunks cur a Hnot; [done|].
  destruct cur as [x|]; simpl; [|done].
  destruct (chunks !! x) as [c|] eqn:Hx; [|done].
  rewrite IH.
  - apply lookup_delete_ne. intros ->. apply Hnot. by eapply reachable_here.
  - intros Hreach. apply Hnot. eapply reachable_next; [done|].
    by eapply reachable_delete.
Qed.

(** Once the walk has come back to a chunk it released, every chunk that
    the list still leads to has been released as well. *)
Lemma reachable_among_released (orig chunks : gmap Z Memchunk.t) cur a :
  (forall d c, orig !! d = Some c -> chunks !! d = None ->
               match Memchunk.next c with
               | None => True
               | Some y => chunks !! y = None
               end) ->
  reachable orig cur a ->
  (forall x, cur = Some x -> chunks !! x = None) ->
  chunks !! a = None.
Proof.
  intros Hclosed. induction 1 as [a c Ha|a c b Ha Hnext IH]; intros Hcur.
  - by apply Hcur.
  - apply IH. intros y Hy. specialize (Hclosed a c Ha (Hcur a eq_refl)).
    by rewrite Hy in Hclosed.
Qed.

Lemma mem_clr_loop_releases n :
  forall (orig chunks : gmap Z Memchunk.t) cur a,
    (forall k v, chunks !! k = Some v -> orig !! k = Some v) ->
    (size chunks <= n)%nat ->
    (forall d c, orig !! d = Some c -> chunks !! d = None ->
                 Memchunk.next c = cur \/
                 match Memchunk.next c with
                 | None => True
                 | Some y => chunks !! y = None
                 end) ->
    reachable orig cur a ->
    mem_clr_loop n chunks cur !! a = None.
Proof.
  induction n as [|n IH]; intros orig chunks cur a Hsub Hsize Hclosed Hreach.
  - assert (chunks = ∅) as -> by (apply map_size_empty_inv; lia).
    simpl. by destruct cur.
  - assert (exists x c, cur = Some x /\ orig !! x = Some c) as (x & c & -> & Hx)
      by (inversion Hreach; subst; eauto).
    simpl. destruct (chunks !! x) as [c0|] eqn:Hlive.
    + assert (c0 = c) as -> by (apply Hsub in Hlive; congruence).
      destruct (decide (a = x)) as [->|Hne].
      { apply mem_clr_loop_only_deletes. apply lookup_delete_eq. }
      apply (IH orig).
      * intros k v Hk. apply lookup_delete_Some in Hk as [_ Hk]. by apply Hsub.
      * rewrite map_size_delete, Hlive. simpl. lia.
      * intros d cd Hd Hgone. apply lookup_delete_None in Hgone as [->|Hgone].
        { left. congruence. }
        right. destruct (Hclosed d cd Hd Hgone) as [Hnext|Hnext].
        -- rewrite Hnext. apply lookup_delete_eq.
        -- destruct (Memchunk.next cd) as [y|]; [|done].
           apply lookup_delete_None. by right.
      * inversion Hreach as [? ? ?|? c' ? Hx' Hnext]; subst; [done|].
        congruence.
    + apply (reachable_among_released orig chunks (Some x) a); [|done|].
      * intros d cd Hd Hgone. destruct (Hclosed d cd Hd Hgone) as [Hnext|Hnext];
          [by rewrite Hnext|done].
      * by intros ? [= <-].
Qed.

(** X12. [mem_clr] releases nothing else: a live chunk that cannot be
    reached from [global_memchunk_list] is still live, and unchanged, after
    the call. *)
Theorem mem_clr_keeps_unregistered_chunks st a :
  ~ registered st a ->
  live_chunks (mem_clr st) !! a = live_chunks st !! a.
Proof.
  intros Hnot. unfold mem_clr. simpl.
  by apply mem_clr_loop_keeps_unreachable.
Qed.

(** X13. A second [mem_clr] in a row is a no-op: the first call leaves the
    global list empty, so the second one releases nothing. *)
Theorem mem_clr_twice_is_mem_clr_once st :
  mem_clr (mem_clr st) = mem_clr st.
Proof.
  unfold mem_clr at 1. simpl. by rewrite mem_clr_loop_NULL.
Qed.

Lemma not_registered_300 : ~ registered two_registered_state 300.
Proof.
  unfold registered. simpl. intros H.
  inversion H as [? ? ?|? c1 ? H1 Hnext1]; subst.
  vm_compute in H1. injection H1 as <-. simpl in Hnext1.
  inversion Hnext1 as [? ? ?|? c2 ? H2 Hnext2]; subst.
  vm_compute in H2. injection H2 as <-. simpl in Hnext2.
  inversion Hnext2.
Qed.

Lemma mem_clr_keeps_unregistered_chunks_witness :
  ~ registered two_registered_state 300 /\
  live_chunks (mem_clr two_registered_state) !! 300 = Some (linked_chunk None).
Proof.
  split; [exact not_registered_300|].
  rewrite (mem_clr_keeps_unregistered_chunks two_registered_state 300).
  - vm_compute. reflexivity.
  - exact not_registered_300.
Defined.

(** ** memory_write *)

Lemma strchr_nul_found d : is_Some (strchr d x00).
Proof.
  induction d as [|c d IH]; simpl; [by eexists|].
  unfold is_nul. destruct (Byte.eqb c x00); [by eexists|].
  by apply fmap_is_Some.
Qed.

Lemma source_bytes_string d :
  source_bytes d (S (strlen d)) = take (strlen d) d ++ [x00].
Proof.
  induction d as [|c d IH]; [done|]. simpl strlen.
  destruct (is_nul c) eqn:Hc.
  - unfold is_nul in Hc. apply byte_dec_bl in Hc. by subst c.
  - unfold source_bytes in *. simpl. f_equal. exact IH.
Qed.

(** X14. With [size == 0], [memory_write] treats [data] as a C string: it
    always takes the [strlen] branch (the [sizeof(data)] fallback cannot be
    reached, since looking for NUL with [strchr] never fails) and leaves at
    the handle the characters before the first NUL followed by one NUL,
    whatever the size of the block behind the handle. *)
Theorem write_of_size_0_copies_the_string mem h data :
  Z.of_nat (strlen data) + 1 <= SIZE_MAX ->
  exists mem',
    memory_write mem (Some h) (Some data) 0 = (0, mem') /\
    load_bytes mem' h (S (strlen data)) = take (strlen data) data ++ [x00].
Proof.
  intros Hlen. unfold memory_write. simpl.
  destruct (strchr_nul_found data) as [off ->].
  rewrite size_t_add_small by lia.
  replace (Z.to_nat (Z.of_nat (strlen data) + 1)) with (S (strlen data)) by lia.
  eexists. split; [reflexivity|].
  rewrite <- source_bytes_string.
  pose proof (load_store_same mem h (source_bytes data (S (strlen data)))) as H.
  by rewrite length_source_bytes in H.
Qed.

Lemma write_of_size_0_copies_the_string_witness :
  Z.of_nat (strlen [x48; x49; x00; x4a]) + 1 <= SIZE_MAX /\
  exists mem',
    memory_write zero_memory (Some 8304) (Some [x48; x49; x00; x4a]) 0
    = (0, mem') /\
    load_bytes mem' 8304 3 = [x48; x49; x00].
Proof.
  split; [vm_compute; discriminate|].
  apply (write_of_size_0_copies_the_string zero_memory 8304
           [x48; x49; x00; x4a]).
  vm_compute. discriminate.
Defined.

(** X15. A [memory_write] of [k > 0] bytes changes the [k] bytes from the
    handle on and no other byte of the memory. *)
Theorem write_changes_only_the_bytes_written mem h data k a :
  0 < k -> a < h \/ h + k <= a ->
  snd (memory_write mem (Some h) (Some data) k) a = mem a.
Proof.
  intros Hk Ha. rewrite memory_write_stores by done. simpl.
  unfold store_bytes. destruct (Z.leb_spec h a); [|done].
  rewrite lookup_ge_None_2; [done|]. rewrite length_source_bytes. lia.
Qed.

Lemma write_changes_only_the_bytes_written_witness :
  0 < 2 /\ (8304 + 2 <= 8306) /\
  snd (memory_write zero_memory (Some 8304) (Some [x48; x49]) 2) 8306
  = zero_memory 8306.
Proof.
  split; [lia|]. split; [lia|].
  apply (write_changes_only_the_bytes_written zero_memory 8304 [x48; x49] 2 8306).
  - lia.
  - right. lia.
Defined.

(** ** Names *)

Lemma length_strncpy n : forall s, length (strncpy s n) = n.
Proof.
  induction n as [|n IH]; intros s; [done|].
  unfold strncpy; fold strncpy.
  destruct s as [|c s]; [by rewrite length_replicate|].
  destruct (is_nul c); [by rewrite length_replicate|].
  simpl. by rewrite IH.
Qed.

(** X16. The name of a chunk is always a terminated string: [memc_init]
    stores 32 bytes, the first 31 as [strncpy] wrote them and a NUL in the
    last one, so a name of 32 characters or more is cut to 31. *)
Theorem memc_init_terminates_the_chunk_name mem chunk_ptr pool_ptr name N c :
  memc_init mem chunk_ptr pool_ptr name N = Some c ->
  length (Memchunk.name c) = 32%nat /\
  Memchunk.name c !! 31%nat = Some x00 /\
  take 31 (Memchunk.name c) = take 31 (strncpy name 32).
Proof.
  unfold memc_init. destruct chunk_ptr; [|done]. destruct pool_ptr; [|done].
  intros [= <-]. simpl.
  split; [by rewrite length_insert, length_strncpy|].
  split; [apply list_lookup_insert_eq; rewrite length_strncpy; lia|].
  apply take_insert_ge. lia.
Qed.

Lemma memc_init_terminates_the_chunk_name_witness :
  memc_init zero_memory (Some 4096) (Some 8192) (long_name x58) 1024
  = Some (the_chunk (memc_init zero_memory (Some 4096) (Some 8192)
                       (long_name x58) 1024)) /\
  Memchunk.name (the_chunk (memc_init zero_memory (Some 4096) (Some 8192)
                              (long_name x58) 1024))
  !! 31%nat = Some x00.
Proof.
  split; [reflexivity|].
  apply (memc_init_terminates_the_chunk_name zero_memory (Some 4096)
           (Some 8192) (long_name x58) 1024).
  reflexivity.
Defined.




Lemma byte_val_inj a b : byte_val a - byte_val b = 0 -> a = b.
Proof.
  unfold byte_val. intros H.
  assert (Byte.to_N a = Byte.to_N b) as Heq by lia.
  pose proof (Byte.of_to_N a) as Ha. rewrite Heq, Byte.of_to_N in Ha.
  congruence.
Qed.

Lemma strncmp_strncpy_eq n :
  forall m s, strncmp (strncpy m n) s n = 0 -> strncpy m n = strncpy s n.
Proof.
  induction n as [|n IH]; intros m s; [done|].
  assert (forall s, strncmp (replicate (S n) x00) s (S n) = 0 ->
                    replicate (S n) x00 = strncpy s (S n)) as Hnul.
  { intros s0. unfold strncmp, strncpy; fold strncmp; fold strncpy. simpl.
    destruct s0 as [|c0 s0]; [done|]. simpl.
    destruct (Byte.eqb x00 c0) eqn:E; simpl.
    - apply byte_dec_bl in E. by subst c0.
    - intros H. apply (byte_val_inj x00 c0) in H. subst c0. done. }
  unfold strncpy at 1 2; fold strncpy. destruct m as [|c m]; [apply Hnul|].
  destruct (is_nul c) eqn:Hc; [apply Hnul|].
  unfold strncmp; fold strncmp. simpl hd. simpl tl.
  destruct (Byte.eqb c (hd x00 s)) eqn:E; simpl.
  - apply byte_dec_bl in E. rewrite Hc. intros H.
    destruct s as [|c' s]; simpl in E.
    + subst c. done.
    + subst c'. unfold strncpy; fold strncpy. rewrite Hc.
      simpl in H. by rewrite (IH m s H).
  - intros H. apply byte_val_inj in H. subst c. by rewrite byte_eqb_refl in E.
Qed.

(** X18. [memory_free] matches whole names, not prefixes: a used block
    that was allocated under one name is matched by another name exactly
    when [strncpy] stores the same 32 bytes for both, that is when the two
    names agree up to their NUL or up to 32 characters. In particular a
    block is always matched by the name it was allocated under. *)
Theorem free_matches_the_stored_name given block_name b :
  Memory.name b = strncpy given 32 ->
  (name_matches block_name b = true <->
   is_used b = true /\ strncpy given 32 = strncpy block_name 32) /\
  (is_used b = true -> name_matches given b = true).
Proof.
  intros Hname. unfold name_matches, is_used. rewrite Hname. split; [split|].
  - intros H. apply andb_true_iff in H as [Hused Hcmp].
    apply Z.eqb_eq in Hcmp. split; [done|]. by apply strncmp_strncpy_eq.
  - intros [Hused Heq]. rewrite Hused, Heq, strncmp_strncpy_self. done.
  - intros Hused. rewrite Hused, strncmp_strncpy_self. done.
Qed.

Lemma free_matches_the_stored_name_witness :
  Memory.name demo_block_A = strncpy name_A 32 /\
  name_matches name_A demo_block_A = true /\
  name_matches [x41; x42] demo_block_A = false.
Proof.
  destruct (free_matches_the_stored_name name_A name_A demo_block_A)
    as [_ Hself]; [reflexivity|].
  split; [reflexivity|]. split; [apply Hself; reflexivity|].
  vm_compute. reflexivity.
Defined.
